(** * mojo_bulk_replace: a shallow embedding of tools/mojo_bulk_replace.py

    The script loads a TOML configuration, walks the configured
    directories, applies an ordered list of literal search/replace rules
    to every file with an included extension, reports per-file and total
    occurrence counts and, in apply mode, writes the changed text back.

    Python values are modelled as follows.
    - [str]: a list of Unicode code points ([pystr]).
    - [int] occurrence counts: [nat] (they are never negative).
    - [dict]: an insertion-ordered association list with distinct keys.
    - exceptions and [SystemExit]: an explicit [failure] ending the run.
    - the file system, standard output and the sequence of system calls:
      fields of an explicit [world] threaded through the program. *)

From Stdlib Require Import NArith String Ascii.
From stdpp Require Import base decidable option list numbers.

Local Open Scope nat_scope.
Local Set Warnings "-register-all".

(** ** Python strings *)

Definition pystr := list N.

(** An ASCII literal as a Python string. *)
Definition py (s : string) : pystr :=
  map N_of_ascii (list_ascii_of_string s).

Definition DOT : N := 46.
Definition LF : N := 10.
Definition CR : N := 13.

(** [s.startswith(sub)] *)
Fixpoint startswith (s sub : pystr) : bool :=
  match sub, s with
  | [], _ => true
  | _ :: _, [] => false
  | a :: sub', b :: s' => if bool_decide (a = b) then startswith s' sub' else false
  end.

Definition is_empty (s : pystr) : bool :=
  match s with [] => true | _ :: _ => false end.

(** [s.count(sub)]: the scan goes left to right; after a match at some
    position the next [len(sub) - 1] positions are skipped, so matches do
    not overlap.  An empty [sub] matches before every character and once
    more at the end of the string. *)
Fixpoint count_scan (sub : pystr) (skip : nat) (s : pystr) : nat :=
  match s with
  | [] => if is_empty sub then 1 else 0
  | _ :: s' =>
      match skip with
      | S k => count_scan sub k s'
      | O =>
          if startswith s sub
          then S (count_scan sub (length sub - 1) s')
          else count_scan sub 0 s'
      end
  end.

Definition str_count (s sub : pystr) : nat := count_scan sub 0 s.

(** [s.replace(old, new)]: the same scan; a matched stretch is dropped and
    [new] is emitted in its place.  For an empty [old] nothing is dropped:
    [new] is inserted before every character and at the end. *)
Fixpoint replace_scan (old new : pystr) (skip : nat) (s : pystr) : pystr :=
  match s with
  | [] => if is_empty old then new else []
  | c :: s' =>
      match skip with
      | S k => replace_scan old new k s'
      | O =>
          if startswith s old
          then new ++ (if is_empty old then [c] else []) ++
               replace_scan old new (length old - 1) s'
          else c :: replace_scan old new 0 s'
      end
  end.

Definition str_replace (s old new : pystr) : pystr := replace_scan old new 0 s.

(** The positions at which the scan of [count_scan] and [replace_scan]
    finds its matches, counted from [pos]. *)
Fixpoint occ_scan (sub : pystr) (skip pos : nat) (s : pystr) : list nat :=
  match s with
  | [] => if is_empty sub then [pos] else []
  | _ :: s' =>
      match skip with
      | S k => occ_scan sub k (S pos) s'
      | O =>
          if startswith s sub
          then pos :: occ_scan sub (length sub - 1) (S pos) s'
          else occ_scan sub 0 (S pos) s'
      end
  end.

Definition occurrences (s sub : pystr) : list nat := occ_scan sub 0 0 s.

(** ** Occurrences, as the specification words them

    [sub] occurs in [s] at index [i]. *)
Definition occurs_at (s sub : pystr) (i : nat) : Prop :=
  i ≤ length s ∧ sub `prefix_of` drop i s.

(** [sub] is a substring of [s]. *)
Definition occurs_in (s sub : pystr) : Prop :=
  ∃ pre post, s = pre ++ sub ++ post.

(** Two occurrences are distinct and do not overlap when their starts are
    at least [width sub] apart. *)
Definition width (sub : pystr) : nat := Nat.max 1 (length sub).

(** [ps] lists the non-overlapping occurrences of [sub] in [s] taken left
    to right: every listed index is an occurrence, listed indices are at
    least [width sub] apart and increasing, and every occurrence of [sub]
    in [s] either is listed or starts inside a listed one. *)
Record left_to_right (s sub : pystr) (ps : list nat) : Prop := {
  ltr_occurs : ∀ p, p ∈ ps → occurs_at s sub p;
  ltr_apart : ∀ i p q, ps !! i = Some p → ps !! S i = Some q → p + width sub ≤ q;
  ltr_leftmost : ∀ q, occurs_at s sub q → ∃ p, p ∈ ps ∧ p ≤ q < p + width sub
}.

(** [s] with the stretch of [n] characters at each index of [ps] replaced
    by [new]; [off] is the index in the original string of the first
    character of [s]. *)
Fixpoint splice (s : pystr) (n : nat) (new : pystr) (off : nat) (ps : list nat) : pystr :=
  match ps with
  | [] => s
  | p :: ps' =>
      take (p - off) s ++ new ++ splice (drop (p - off + n) s) n new (p + n) ps'
  end.

(** ** Python dictionaries: insertion-ordered, keys distinct *)

Definition dict (V : Type) := list (pystr * V).

Fixpoint dict_get {V} (d : dict V) (k : pystr) : option V :=
  match d with
  | [] => None
  | (k', v) :: d' => if decide (k' = k) then Some v else dict_get d' k
  end.

(** [d[k] = v]: an existing key keeps its place, a new key goes last. *)
Fixpoint dict_set {V} (d : dict V) (k : pystr) (v : V) : dict V :=
  match d with
  | [] => [(k, v)]
  | (k', v') :: d' =>
      if decide (k' = k) then (k', v) :: d' else (k', v') :: dict_set d' k v
  end.

Definition keys {V} (d : dict V) : list pystr := map fst d.
Definition values {V} (d : dict V) : list V := map snd d.

(** ** Replacement rules and the rule applier *)

Record Replacement := {
  name : pystr;
  search : pystr;
  replace : pystr
}.

Definition truth (n : nat) : bool := negb (n =? 0).

(** The body of the loop of [process_file] (lines 74-78). *)
Definition apply_rule (st : pystr * dict nat) (repl : Replacement) : pystr * dict nat :=
  let '(new_text, counts) := st in
  let before := str_count new_text (search repl) in
  let new_text :=
    if truth before then str_replace new_text (search repl) (replace repl)
    else new_text in
  (new_text, dict_set counts (name repl) before).

(** [process_file] after the file has been read (lines 72-79). *)
Definition apply_rules (text : pystr) (replacements : list Replacement) : pystr * dict nat :=
  fold_left apply_rule replacements (text, []).

(** [any(counts.values())] *)
Definition any_count (counts : dict nat) : bool := existsb truth (values counts).

(** ** File names *)

(** [s.rfind(c)], [None] for Python's -1. *)
Fixpoint rfind (c : N) (s : pystr) : option nat :=
  match s with
  | [] => None
  | x :: s' =>
      match rfind c s' with
      | Some i => Some (S i)
      | None => if bool_decide (x = c) then Some 0 else None
      end
  end.

(** [PurePath.suffix] of a one-component path (Python 3.11 to 3.13): the
    name from its last dot on, unless that dot is the first or the last
    character of the name. *)
Definition suffix (fname : pystr) : pystr :=
  match rfind DOT fname with
  | Some i => if (0 <? i) && (i <? length fname - 1) then drop i fname else []
  | None => []
  end.

(** [s.lstrip(".")] *)
Fixpoint lstrip_dots (s : pystr) : pystr :=
  match s with
  | c :: s' => if bool_decide (c = DOT) then lstrip_dots s' else s
  | [] => []
  end.

(** Line 108. *)
Definition extension (fname : pystr) : pystr := lstrip_dots (suffix fname).

(** The extension as the specification words it: the text after the last
    dot of the name; a name without a dot has none. *)
Definition after_last_dot (fname : pystr) : option pystr :=
  match rfind DOT fname with
  | Some i => Some (drop (S i) fname)
  | None => None
  end.

(** ** TOML documents, as [tomllib] returns them

    A scalar that is not a string (integer, float, boolean, date or time)
    carries what the program can observe of it: its [str()] rendering and
    its truth value. *)
Inductive toml :=
| TStr (s : pystr)
| TScalar (shown : pystr) (truthy : bool)
| TArray (items : list toml)
| TTable (items : list (pystr * toml)).

Inductive exception :=
| OSError
| UnicodeDecodeError
| UnicodeEncodeError
| TOMLDecodeError
| RecursionError
| AttributeError
| TypeError
| ValueError
| KeyError.

(** What a read that fails raises: an [OSError] (no such file, no
    permission, a directory) or, for bytes that are not UTF-8, a
    [UnicodeDecodeError]. *)
Inductive read_failure := ReadOSError | ReadUnicodeDecodeError.

Definition read_exception (r : read_failure) : exception :=
  match r with
  | ReadOSError => OSError
  | ReadUnicodeDecodeError => UnicodeDecodeError
  end.

(** What [tomllib.loads] raises on a text it does not parse: a
    [TOMLDecodeError] or, for a document nested too deeply, a
    [RecursionError]. *)
Inductive loads_failure := LoadsTOMLDecodeError | LoadsRecursionError.

Definition loads_exception (r : loads_failure) : exception :=
  match r with
  | LoadsTOMLDecodeError => TOMLDecodeError
  | LoadsRecursionError => RecursionError
  end.

(** What [print] raises when the stream does not take a line: a
    [UnicodeEncodeError] for a character outside the encoding of the
    stream, or an [OSError] (a closed pipe). *)
Inductive print_failure := PrintUnicodeEncodeError | PrintOSError.

Definition print_exception (r : print_failure) : exception :=
  match r with
  | PrintUnicodeEncodeError => UnicodeEncodeError
  | PrintOSError => OSError
  end.

(** What [os.stat] answers for a path: a directory, something else, or
    an error. *)
Inductive errno :=
| ENOENT | ENOTDIR | EBADF | ELOOP | ENAMETOOLONG | EACCES | EOTHER.

Inductive stat_result :=
| StDirectory
| StNotDirectory
| StError (e : errno)
| StValueError.        (* a path the system call cannot take *)

#[global] Instance errno_eq_dec : EqDecision errno.
Proof. solve_decision. Defined.

#[global] Instance stat_result_eq_dec : EqDecision stat_result.
Proof. solve_decision. Defined.

(** The errors [Path.is_dir] swallows (Python 3.11 and 3.12). *)
Definition ignored_errno (e : errno) : bool :=
  match e with
  | ENOENT | ENOTDIR | EBADF | ELOOP => true
  | ENAMETOOLONG | EACCES | EOTHER => false
  end.

(** [Path.is_dir()] on the answer of [os.stat]: [None] where it raises
    the [OSError]. *)
Definition is_dir_answer (r : stat_result) : option bool :=
  match r with
  | StDirectory => Some true
  | StNotDirectory => Some false
  | StError e => if ignored_errno e then Some false else None
  | StValueError => Some false
  end.


(** How a run is cut short. *)
Inductive failure :=
| UsageError (msg : pystr)       (* parser.error: usage and message on stderr *)
| SystemExit (msg : pystr)       (* raise SystemExit(msg): message on stderr *)
| Uncaught (exc : exception).    (* traceback on stderr *)

(** How a run ends. *)
Inductive outcome :=
| Completed                      (* main returns *)
| Failed (f : failure).

Definition exit_status (o : outcome) : nat :=
  match o with
  | Completed => 0
  | Failed (UsageError _) => 2
  | Failed (SystemExit _) => 1
  | Failed (Uncaught _) => 1
  end.

Inductive result (A : Type) :=
| Ok (a : A)
| Abort (f : failure).
Arguments Ok {A} a.
Arguments Abort {A} f.

Definition truthy_toml (v : toml) : bool :=
  match v with
  | TStr s => negb (is_empty s)
  | TScalar _ b => b
  | TArray items => match items with [] => false | _ => true end
  | TTable items => match items with [] => false | _ => true end
  end.

(** Iterating a value ([list(v)], [for item in v]): a string yields its
    characters, a table its keys; a scalar is not iterable. *)
Definition py_iter (v : toml) : result (list toml) :=
  match v with
  | TStr s => Ok (map (λ c, TStr [c]) s)
  | TScalar _ _ => Abort (Uncaught TypeError)
  | TArray items => Ok items
  | TTable items => Ok (map (λ kv, TStr (fst kv)) items)
  end.

(** Looking up the method [get] of a value: only tables have it. *)
Definition get_method (v : toml) : result (dict toml) :=
  match v with
  | TTable items => Ok items
  | _ => Abort (Uncaught AttributeError)
  end.

(** [x == v] for a string [x]: a string equals only strings. *)
Definition str_eq_toml (x : pystr) (v : toml) : bool :=
  match v with
  | TStr s => bool_decide (x = s)
  | _ => false
  end.

(** [x in l] for a string [x]. *)
Definition str_in (x : pystr) (l : list toml) : bool := existsb (str_eq_toml x) l.

(** ** What the program takes from its platform

    Paths and their algebra ([pathlib]), the TOML parser ([tomllib]) and
    [str()] of a list or dict are library code; the program is modelled
    over any implementation of them. *)
Class Runtime := {
  path : Type;
  path_eq_dec :: EqDecision path;
  (** [p / s] *)
  joinpath : path → pystr → path;
  (** [p.relative_to(root)], [None] when it raises [ValueError] *)
  relative_to : path → path → option path;
  (** [tomllib.loads(text)], [None] when it raises *)
  tomllib_loads : pystr → option (dict toml);
  (** what [tomllib.loads(text)] raises when it does *)
  loads_error : pystr → loads_failure;
  (** [str(v)] for an array or a table *)
  container_str : toml → pystr
}.

(** ** The world the program runs in *)

Section Program.
Context `{Runtime}.

(** System calls, in the order the program makes them.  [EvFileDone] is
    not a system call: it marks the end of one iteration of the file loop
    (after line 122) and records the counts of that file. *)
Inductive event :=
| EvReadText (p : path) (got : option pystr)
| EvWriteText (p : path) (data : pystr)
| EvIsDir (p : path)
| EvWalk (p : path)
| EvFileDone (p : path) (counts : dict nat).

(** What [print] writes. *)
Inductive line :=
| OutFile (rel : path)                    (* [FILE] rel *)
| OutCount (name : pystr) (c : nat)       (*   name: c occurrence(s) *)
| OutSummary                              (* Summary: *)
| OutTotal (name : pystr) (c : nat).      (*   name: c total occurrence(s) *)

(** [disk p] is the decoded text of the file at [p] as stored, [None]
    where a read raises, and then [read_error p] says what.  The
    directory tree is not changed by the program, which only rewrites
    files that exist: [stat] and [os_walk] (the [(root, files)] of every
    triple [os.walk] yields) stay fixed.  [stdout_fails printed l] says
    whether, and how, printing the line [l] after the lines [printed]
    fails. *)
Record world := {
  cwd : path;
  stat : path → stat_result;
  os_walk : path → list (path * list pystr);
  disk : path → option pystr;
  read_error : path → read_failure;
  writable : path → bool;
  stdout_fails : list line → line → option print_failure;
  stdout : list line;
  trace : list event
}.

Definition log (e : event) (w : world) : world :=
  {| cwd := cwd w; stat := stat w; os_walk := os_walk w; disk := disk w;
     read_error := read_error w; writable := writable w;
     stdout_fails := stdout_fails w; stdout := stdout w; trace := trace w ++ [e] |}.

Definition emit (ls : list line) (w : world) : world :=
  {| cwd := cwd w; stat := stat w; os_walk := os_walk w; disk := disk w;
     read_error := read_error w; writable := writable w;
     stdout_fails := stdout_fails w; stdout := stdout w ++ ls; trace := trace w |}.

Definition store (p : path) (data : pystr) (w : world) : world :=
  {| cwd := cwd w; stat := stat w; os_walk := os_walk w;
     disk := λ q, if decide (q = p) then Some data else disk w q;
     read_error := read_error w; writable := writable w;
     stdout_fails := stdout_fails w; stdout := stdout w; trace := trace w |}.

(** A computation may change the world and either returns or ends the run. *)
Definition M (A : Type) : Type := world → result A * world.

#[global] Instance M_ret : MRet M := λ A (a : A) w, (Ok a, w).

#[global] Instance M_bind : MBind M := λ A B (k : A → M B) (m : M A) w,
  match m w with
  | (Ok a, w') => k a w'
  | (Abort o, w') => (Abort o, w')
  end.

Definition raise {A} (f : failure) : M A := λ w, (Abort f, w).

Definition lift {A} (r : result A) : M A := λ w, (r, w).

(** A [for] loop threading the variables the body assigns. *)
Fixpoint for_each {A S} (body : S → A → M S) (l : list A) (s : S) : M S :=
  match l with
  | [] => mret s
  | a :: l' => s' ← body s a; for_each body l' s'
  end.

(** Reading in text mode translates every line ending to a line feed. *)
Fixpoint universal_newlines (s : pystr) : pystr :=
  match s with
  | [] => []
  | c :: s' =>
      if bool_decide (c = CR) then
        match s' with
        | d :: s'' => if bool_decide (d = LF) then LF :: universal_newlines s''
                      else LF :: universal_newlines s'
        | [] => [LF]
        end
      else c :: universal_newlines s'
  end.

(** [p.read_text(encoding="utf-8")] *)
Definition read_text (p : path) : M pystr :=
  λ w, let got := universal_newlines <$> disk w p in
       match got with
       | Some text => (Ok text, log (EvReadText p got) w)
       | None => (Abort (Uncaught (read_exception (read_error w p))),
                  log (EvReadText p got) w)
       end.

(** [p.write_text(data, encoding="utf-8")] *)
Definition write_text (p : path) (data : pystr) : M unit :=
  λ w, if writable w p then (Ok tt, store p data (log (EvWriteText p data) w))
       else (Abort (Uncaught OSError), log (EvWriteText p data) w).

(** [print(l)]: the line goes to the stream, or the call raises and
    nothing of the line is written. *)
Definition print_line (l : line) : M unit :=
  λ w, match stdout_fails w (stdout w) l with
       | None => (Ok tt, emit [l] w)
       | Some r => (Abort (Uncaught (print_exception r)), w)
       end.

(** Several [print] calls in a row. *)
Fixpoint print (ls : list line) : M unit :=
  match ls with
  | [] => mret tt
  | l :: ls' => print_line l;; print ls'
  end.

(** [p.is_dir()] *)
Definition is_dir (p : path) : M bool :=
  λ w, match is_dir_answer (stat w p) with
       | Some b => (Ok b, log (EvIsDir p) w)
       | None => (Abort (Uncaught OSError), log (EvIsDir p) w)
       end.

(** ** The program *)

Record Settings := {
  include_extensions : list toml;
  directories : list toml
}.

(** [str(v)] *)
Definition py_str (v : toml) : pystr :=
  match v with
  | TStr s => s
  | TScalar shown _ => shown
  | _ => container_str v
  end.

(** [d.get(k, dflt)] *)
Definition get_or (d : dict toml) (k : pystr) (dflt : toml) : toml :=
  default dflt (dict_get d k).

(** One replacement entry (lines 59-65). *)
Definition load_replacement (item : toml) : result Replacement :=
  match get_method item with
  | Ok tbl =>
      Ok {| name := py_str (get_or tbl (py "name") (TStr (py "unnamed")));
            search := py_str (get_or tbl (py "search") (TStr []));
            replace := py_str (get_or tbl (py "replace") (TStr [])) |}
  | Abort o => Abort o
  end.

Fixpoint load_replacements (items : list toml) : result (list Replacement) :=
  match items with
  | [] => Ok []
  | item :: items' =>
      match load_replacement item with
      | Ok r =>
          match load_replacements items' with
          | Ok rs => Ok (r :: rs)
          | Abort o => Abort o
          end
      | Abort o => Abort o
      end
  end.

(** [load_config] on the parsed document (lines 51-67). *)
Definition config_of (data : dict toml) : result (Settings * list Replacement) :=
  let settings_tbl :=
    match dict_get data (py "settings") with
    | Some v => if truthy_toml v then v else TTable []
    | None => TTable []
    end in
  match get_method settings_tbl with
  | Abort o => Abort o
  | Ok tbl =>
      match py_iter (get_or tbl (py "include_extensions") (TArray [TStr (py "mojo")])) with
      | Abort o => Abort o
      | Ok exts =>
          match py_iter (get_or tbl (py "directories") (TArray [])) with
          | Abort o => Abort o
          | Ok dirs =>
              match py_iter (get_or data (py "replacements") (TArray [])) with
              | Abort o => Abort o
              | Ok items =>
                  match load_replacements items with
                  | Abort o => Abort o
                  | Ok rs =>
                      Ok ({| include_extensions := exts; directories := dirs |}, rs)
                  end
              end
          end
      end
  end.

Definition load_config (p : path) : M (Settings * list Replacement) :=
  text ← read_text p;
  match tomllib_loads text with
  | None => raise (Uncaught (loads_exception (loads_error text)))
  | Some data => lift (config_of data)
  end.

Definition process_file (p : path) (replacements : list Replacement)
  : M (pystr * dict nat) :=
  text ← read_text p;
  mret (apply_rules text replacements).

(** [parser.parse_args()] has run: what [main] sees of the command line. *)
Record Args := {
  config : path;
  dry_run : bool;
  apply : bool
}.

(** Line 100. *)
Definition zero_counts (replacements : list Replacement) : dict nat :=
  fold_left (λ d r, dict_set d (name r) 0) replacements [].

(** [total_counts[name] += c] *)
Definition add_count (totals : dict nat) (item : pystr * nat) : result (dict nat) :=
  match dict_get totals (fst item) with
  | Some t => Ok (dict_set totals (fst item) (t + snd item))
  | None => Abort (Uncaught KeyError)
  end.

(** Lines 121-122. *)
Fixpoint add_counts (totals : dict nat) (items : list (pystr * nat)) : result (dict nat) :=
  match items with
  | [] => Ok totals
  | item :: items' =>
      match add_count totals item with
      | Ok totals' => add_counts totals' items'
      | Abort o => Abort o
      end
  end.

(** Lines 116-118. *)
Definition count_lines (counts : dict nat) : list line :=
  map (λ kv, OutCount (fst kv) (snd kv)) (filter (λ kv, truth (snd kv) = true) counts).

(** Lines 113-120. *)
Definition report_and_write (args : Args) (repo_root fpath : path)
    (new_text : pystr) (counts : dict nat) : M unit :=
  if any_count counts then
    match relative_to fpath repo_root with
    | None => raise (Uncaught ValueError)
    | Some rel =>
        print (OutFile rel :: count_lines counts);;
        if apply args then
          current ← read_text fpath;
          if bool_decide (new_text ≠ current) then write_text fpath new_text
          else mret tt
        else mret tt
    end
  else mret tt.

(** The end of one iteration of the file loop. *)
Definition done_file (fpath : path) (counts totals : dict nat) : M (dict nat) :=
  λ w, (Ok totals, log (EvFileDone fpath counts) w).

(** The body of the loop over [files] (lines 108-122). *)
Definition visit_file (args : Args) (settings : Settings)
    (replacements : list Replacement) (repo_root root : path)
    (totals : dict nat) (fname : pystr) : M (dict nat) :=
  let ext := extension fname in
  if negb (str_in ext (include_extensions settings)) then mret totals
  else
    let fpath := joinpath root fname in
    '(new_text, counts) ← process_file fpath replacements;
    report_and_write args repo_root fpath new_text counts;;
    totals' ← lift (add_counts totals counts);
    done_file fpath counts totals'.

(** [os.walk(p)]: the [(root, files)] of the triples it yields; errors
    while listing are ignored by [os.walk] itself. *)
Definition walk (p : path) : M (list (path * list pystr)) :=
  λ w, (Ok (os_walk w p), log (EvWalk p) w).

(** The body of the loop over [settings.directories] (lines 103-122). *)
Definition visit_directory (args : Args) (settings : Settings)
    (replacements : list Replacement) (repo_root : path)
    (totals : dict nat) (rel_dir : toml) : M (dict nat) :=
  match rel_dir with
  | TStr d =>
      let base := joinpath repo_root d in
      found ← is_dir base;
      if negb found then mret totals
      else
        entries ← walk base;
        for_each
          (λ totals entry,
             for_each (visit_file args settings replacements repo_root (fst entry))
                      (snd entry) totals)
          entries totals
  | _ => raise (Uncaught TypeError)
  end.

Definition usage_message : pystr := py "Specify either --dry-run or --apply".
Definition no_directories_message : pystr :=
  py "No directories specified in [settings.directories]".

Definition summary_lines (totals : dict nat) : list line :=
  OutSummary :: map (λ kv, OutTotal (fst kv) (snd kv)) totals.

(** [main] from line 90 on, for the namespace [parse_args] returned.
    The summary (lines 124-126) is printed line by line. *)
Definition main_body (args : Args) : M unit :=
  if negb (dry_run args) && negb (apply args) then raise (UsageError usage_message)
  else
    '(settings, replacements) ← load_config (config args);
    match directories settings with
    | [] => raise (SystemExit no_directories_message)
    | _ :: _ =>
        λ w,
          let repo_root := cwd w in
          (totals ← for_each (visit_directory args settings replacements repo_root)
                     (directories settings) (zero_counts replacements);
           print (summary_lines totals)) w
    end.

Definition main (args : Args) (w : world) : outcome * world :=
  match main_body args w with
  | (Ok _, w') => (Completed, w')
  | (Abort f, w') => (Failed f, w')
  end.



(** The file loop and the directory loop as they would be if, instead of
    adding each file's counts to the totals, they kept them: the list of
    the counts [process_file] returned, file by file, in the order of
    processing. *)
Definition collect_file (args : Args) (settings : Settings)
    (replacements : list Replacement) (repo_root root : path)
    (per_file : list (dict nat)) (fname : pystr) : M (list (dict nat)) :=
  let ext := extension fname in
  if negb (str_in ext (include_extensions settings)) then mret per_file
  else
    let fpath := joinpath root fname in
    '(new_text, counts) ← process_file fpath replacements;
    report_and_write args repo_root fpath new_text counts;;
    done_file fpath counts counts;;
    mret (per_file ++ [counts]).

Definition collect_directory (args : Args) (settings : Settings)
    (replacements : list Replacement) (repo_root : path)
    (per_file : list (dict nat)) (rel_dir : toml) : M (list (dict nat)) :=
  match rel_dir with
  | TStr d =>
      let base := joinpath repo_root d in
      found ← is_dir base;
      if negb found then mret per_file
      else
        entries ← walk base;
        for_each
          (λ per_file entry,
             for_each (collect_file args settings replacements repo_root (fst entry))
                      (snd entry) per_file)
          entries per_file
  | _ => raise (Uncaught TypeError)
  end.

End Program.

(** ** Vocabulary of the statements about a run *)

(** The [settings] table of the document, when there is one, has no
    [directories] key. *)
Definition directories_key_absent (data : dict toml) : Prop :=
  ∀ tbl, dict_get data (py "settings") = Some (TTable tbl) →
         dict_get tbl (py "directories") = None.

(** Several events logged in a row. *)
Definition logs `{Runtime} (es : list event) (w : world) : world :=
  fold_left (λ w e, log e w) es w.


Definition is_write `{Runtime} (e : event) : Prop :=
  match e with EvWriteText _ _ => True | _ => False end.

(** Every write in a stretch of the trace happens in apply mode and
    directly after a read of the same file that returned a text other
    than the one written. *)
Definition writes_guarded `{Runtime} (apply_mode : bool) (tr : list event) : Prop :=
  ∀ pre p data post, tr = pre ++ EvWriteText p data :: post →
    apply_mode = true ∧
    ∃ pre' current, pre = pre' ++ [EvReadText p (Some current)] ∧ data ≠ current.

(** How a stretch of the program may change the world: the working
    directory, the directory tree and the permissions stay as they are;
    the trace grows by a stretch [tr] whose writes are guarded; and a file
    that [tr] does not write keeps its content. *)
Definition evolves `{Runtime} (apply_mode : bool) (w w' : world) : Prop :=
  cwd w' = cwd w ∧ stat w' = stat w ∧ os_walk w' = os_walk w ∧
  writable w' = writable w ∧
  ∃ tr, trace w' = trace w ++ tr ∧
        writes_guarded apply_mode tr ∧
        ∀ p, (∀ data, EvWriteText p data ∉ tr) → disk w' p = disk w p.


(** The extension of a file name, case by case. *)
Inductive extension_of : pystr → pystr → Prop :=
| ext_inner (stem e : pystr) :
    stem ≠ [] → e ≠ [] → DOT ∉ e → extension_of (stem ++ DOT :: e) e
| ext_no_dot (fname : pystr) :
    DOT ∉ fname → extension_of fname []
| ext_leading_dot (e : pystr) :
    DOT ∉ e → extension_of (DOT :: e) []
| ext_trailing_dot (stem : pystr) :
    extension_of (stem ++ [DOT]) [].



(** ** Vocabulary of the further properties *)

(** The entry [item] of the [replacements] array spells out the rule [r]
    with string values. *)
Definition entry_for (r : Replacement) (item : toml) : Prop :=
  ∃ tbl, item = TTable tbl ∧
         dict_get tbl (py "name") = Some (TStr (name r)) ∧
         dict_get tbl (py "search") = Some (TStr (search r)) ∧
         dict_get tbl (py "replace") = Some (TStr (replace r)).

(** The distinct elements of a list, in the order of first appearance. *)
Definition first_seen (l : list pystr) : list pystr :=
  fold_left (λ acc k, if decide (k ∈ acc) then acc else acc ++ [k]) l [].

(** The failures a run can end with once the flags are accepted. *)
Definition run_failure (f : failure) : Prop :=
  f = SystemExit no_directories_message ∨
  ∃ exc, f = Uncaught exc ∧ exc ≠ KeyError.

(** The totals have an entry for every rule name. *)
Definition covers (rs : list Replacement) (totals : dict nat) : Prop :=
  ∀ k, k ∈ map name rs → k ∈ keys totals.




(** The stream takes the lines [ls] one after the other, [printed]
    being what was printed before. *)
Fixpoint accepted `{Runtime} (fails : list line → line → option print_failure)
    (printed : list line) (ls : list line) : Prop :=
  match ls with
  | [] => True
  | l :: ls' => fails printed l = None ∧ accepted fails (printed ++ [l]) ls'
  end.

(** In the world [w] the lines [ls] can be printed. *)
Definition prints `{Runtime} (w : world) (ls : list line) : Prop :=
  accepted (stdout_fails w) (stdout w) ls.

(** The sum of the counts recorded under the name [k] in the per-file
    counts [per_file]. *)
Definition sum_counts (k : pystr) (per_file : list (dict nat)) : nat :=
  sum_list (map (λ counts, default 0 (dict_get counts k)) per_file).

(** The totals [totals'] are the totals [totals] grown by the per-file
    counts [per_file]: the same names in the same order, and under every
    name the old total plus the sum of the counts of that name. *)
Definition grown_by (totals : dict nat) (per_file : list (dict nat))
    (totals' : dict nat) : Prop :=
  keys totals' = keys totals ∧
  ∀ k, dict_get totals' k = (λ t, t + sum_counts k per_file) <$> dict_get totals k.


(** ** A concrete platform and repository, to run the program on

    Paths are strings joined with a slash, which is all the names used
    below need; [demo_loads] stands for the TOML parser on the three
    configuration texts used below. *)

Definition demo_join (p s : pystr) : pystr :=
  if startswith s (py "/") then s
  else if bool_decide (s = []) || bool_decide (s = py ".") then p
  else p ++ py "/" ++ s.

Definition demo_relative_to (p root : pystr) : option pystr :=
  if startswith p (root ++ py "/") then Some (drop (S (length root)) p) else None.

Definition rule_table (n s r : string) : toml :=
  TTable [(py "name", TStr (py n)); (py "search", TStr (py s)); (py "replace", TStr (py r))].

(** [[settings] directories = ["src"]] and the rule alias -> comptime. *)
Definition demo_document : dict toml :=
  [(py "settings", TTable [(py "directories", TArray [TStr (py "src")])]);
   (py "replacements", TArray [rule_table "x" "alias " "comptime "])].

(** No [directories] key. *)
Definition no_directories_document : dict toml :=
  [(py "settings", TTable [(py "include_extensions", TArray [TStr (py "mojo")])]);
   (py "replacements", TArray [rule_table "x" "alias " "comptime "])].

(** A directory that does not exist. *)
Definition missing_dir_document : dict toml :=
  [(py "settings", TTable [(py "directories", TArray [TStr (py "missing_dir")])]);
   (py "replacements", TArray [rule_table "x" "alias " "comptime "])].

Definition demo_loads (text : pystr) : option (dict toml) :=
  if bool_decide (text = py "demo") then Some demo_document
  else if bool_decide (text = py "no-directories") then Some no_directories_document
  else if bool_decide (text = py "missing-dir") then Some missing_dir_document
  else None.

Definition demo_runtime : Runtime :=
  {| path := pystr;
     joinpath := demo_join;
     relative_to := demo_relative_to;
     tomllib_loads := demo_loads;
     loads_error := λ _, LoadsTOMLDecodeError;
     container_str := λ _, py "<container>" |}.

Definition two_aliases : pystr :=
  py "alias Foo = Int" ++ [LF] ++ py "alias Bar = Int" ++ [LF].

Definition two_comptimes : pystr :=
  py "comptime Foo = Int" ++ [LF] ++ py "comptime Bar = Int" ++ [LF].

(** /repo holds three configuration files and src/ with a.mojo, b.txt and
    a file named .mojo. *)
Definition demo_disk (p : pystr) : option pystr :=
  if bool_decide (p = py "/repo/demo.toml") then Some (py "demo")
  else if bool_decide (p = py "/repo/nodirs.toml") then Some (py "no-directories")
  else if bool_decide (p = py "/repo/missing.toml") then Some (py "missing-dir")
  else if bool_decide (p = py "/repo/src/a.mojo") then Some two_aliases
  else if bool_decide (p = py "/repo/src/b.txt") then Some (py "alias in a text file")
  else if bool_decide (p = py "/repo/src/.mojo") then Some (py "alias Hidden = Int")
  else None.

Definition demo_stat (p : pystr) : stat_result :=
  if bool_decide (p = py "/repo/src") then StDirectory else StError ENOENT.

Definition demo_walk (p : pystr) : list (pystr * list pystr) :=
  if bool_decide (p = py "/repo/src")
  then [(py "/repo/src", [py "a.mojo"; py "b.txt"; py ".mojo"])]
  else [].

Definition demo_world : @world demo_runtime :=
  @Build_world demo_runtime
    (* cwd *) (py "/repo")
    (* stat *) demo_stat
    (* os_walk *) demo_walk
    (* disk *) demo_disk
    (* read_error *) (λ _, ReadOSError)
    (* writable *) (λ _, true)
    (* stdout_fails *) (λ _ _, None)
    (* stdout *) []
    (* trace *) [].

(** The same repository on a file system for which the name
    [missing_dir] is too long: [stat] fails with [ENAMETOOLONG]. *)
Definition long_name_world : @world demo_runtime :=
  @Build_world demo_runtime (py "/repo")
    (λ p, if bool_decide (p = py "/repo/missing_dir") then StError ENAMETOOLONG
          else demo_stat p)
    demo_walk demo_disk (λ _, ReadOSError) (λ _, true) (λ _ _, None) [] [].

(** The same repository with an output stream that cannot encode the
    lines of totals. *)
Definition narrow_stream_world : @world demo_runtime :=
  @Build_world demo_runtime (py "/repo") demo_stat demo_walk demo_disk
    (λ _, ReadOSError) (λ _, true)
    (λ _ l, match l with
            | OutTotal _ _ => Some PrintUnicodeEncodeError
            | _ => None
            end)
    [] [].

Definition demo_args (cfg : string) (dry app : bool) : @Args demo_runtime :=
  @Build_Args demo_runtime (py cfg) dry app.

Definition alias_rule : Replacement :=
  {| name := py "x"; search := py "alias "; replace := py "comptime " |}.

Definition mojo_only (dirs : list toml) : Settings :=
  {| include_extensions := [TStr (py "mojo")]; directories := dirs |}.


(** More concrete material: a rule that matches nothing in the
    repository, a document whose [directories] is a string, and a
    platform whose parser returns a document with a number among the
    directories. *)
Definition quiet_rule : Replacement :=
  {| name := py "q"; search := py "zzz"; replace := py "y" |}.

Definition string_directories_table : dict toml :=
  [(py "directories", TStr (py "src"))].

Definition string_directories_document : dict toml :=
  [(py "settings", TTable string_directories_table)].





(** * Properties *)

(** ** Strings *)

Lemma startswith_prefix (s sub : pystr) :
  startswith s sub = true ↔ sub `prefix_of` s.
Proof.
  revert s. induction sub as [|a sub IH]; intros s.
  - destruct s; simpl; (split; [intros _; apply prefix_nil | done]).
  - destruct s as [|b s]; simpl.
    + split; [done | intros Hp; by apply prefix_nil_not in Hp].
    + case_bool_decide as Hab.
      * subst b. rewrite IH. split.
        -- apply prefix_cons.
        -- apply prefix_cons_inv_2.
      * split; [done | intros Hp]. apply prefix_cons_inv_1 in Hp. done.
Qed.

Lemma is_empty_true (s : pystr) : is_empty s = true ↔ s = [].
Proof. destruct s; simpl; split; congruence. Qed.

Lemma width_pos (sub : pystr) : 1 ≤ width sub.
Proof. unfold width. lia. Qed.

Lemma width_length (sub : pystr) : length sub ≤ width sub.
Proof. unfold width. lia. Qed.

Lemma occurs_at_cons (c : N) (s sub : pystr) (i : nat) :
  occurs_at (c :: s) sub (S i) ↔ occurs_at s sub i.
Proof. unfold occurs_at. simpl. split; intros [? ?]; split; auto; lia. Qed.

Lemma occurs_at_zero (s sub : pystr) :
  occurs_at s sub 0 ↔ startswith s sub = true.
Proof.
  unfold occurs_at. rewrite startswith_prefix, drop_0.
  split; [by intros [_ ?] | intros ?; split; [lia | done]].
Qed.

Lemma occurs_at_nil (sub : pystr) (i : nat) :
  occurs_at [] sub i → i = 0 ∧ sub = [].
Proof.
  intros [Hi Hp]. simpl in Hi. split; [lia|].
  rewrite drop_nil in Hp. by apply prefix_nil_inv in Hp.
Qed.

(** One step of a scan, leaving [startswith] folded. *)
Ltac scan_step := cbn [count_scan occ_scan replace_scan].

(** The count is the number of positions the scan selects. *)
Lemma count_scan_occ (sub : pystr) (skip pos : nat) (s : pystr) :
  count_scan sub skip s = length (occ_scan sub skip pos s).
Proof.
  revert skip pos. induction s as [|c s IH]; intros skip pos; scan_step.
  - by destruct (is_empty sub).
  - destruct skip as [|k]; [|apply IH].
    destruct (startswith (c :: s) sub); simpl; [f_equal|]; apply IH.
Qed.

(** Every selected position is an occurrence, at or after the skipped
    stretch. *)
Lemma occ_scan_occurs (sub : pystr) (skip pos : nat) (s : pystr) (p : nat) :
  skip ≤ length sub - 1 →
  p ∈ occ_scan sub skip pos s →
  ∃ i, p = pos + i ∧ skip ≤ i ∧ occurs_at s sub i.
Proof.
  revert skip pos. induction s as [|c s IH]; intros skip pos Hskip; scan_step.
  - destruct (is_empty sub) eqn:He; [|by intros ?%elem_of_nil].
    apply is_empty_true in He. subst sub. simpl in Hskip.
    intros ->%list_elem_of_singleton. exists 0.
    split; [lia|]. split; [lia|]. split; [simpl; lia | apply prefix_nil].
  - destruct skip as [|k].
    + destruct (startswith (c :: s) sub) eqn:Hm.
      * intros [->|Hin]%elem_of_cons.
        -- exists 0. split; [lia|]. split; [lia|]. by apply occurs_at_zero.
        -- apply IH in Hin as (i & -> & Hi & Ho); [|lia].
           exists (S i). split; [lia|]. split; [lia|]. by apply occurs_at_cons.
      * intros Hin. apply IH in Hin as (i & -> & Hi & Ho); [|lia].
        exists (S i). split; [lia|]. split; [lia|]. by apply occurs_at_cons.
    + intros Hin. apply IH in Hin as (i & -> & Hi & Ho); [|lia].
      exists (S i). split; [lia|]. split; [lia|]. by apply occurs_at_cons.
Qed.

Lemma occ_scan_lower (sub : pystr) (skip pos : nat) (s : pystr) (p : nat) :
  skip ≤ length sub - 1 → p ∈ occ_scan sub skip pos s → pos + skip ≤ p.
Proof.
  intros Hskip Hin. destruct (occ_scan_occurs _ _ _ _ _ Hskip Hin) as (i & -> & ? & _).
  lia.
Qed.

(** Selected positions are at least a width apart. *)
Lemma occ_scan_apart (sub : pystr) (skip pos : nat) (s : pystr) (i p q : nat) :
  skip ≤ length sub - 1 →
  occ_scan sub skip pos s !! i = Some p →
  occ_scan sub skip pos s !! S i = Some q →
  p + width sub ≤ q.
Proof.
  revert skip pos i. induction s as [|c s IH]; intros skip pos i Hskip; scan_step.
  - destruct (is_empty sub); simpl; [|done]. by destruct i.
  - destruct skip as [|k].
    + destruct (startswith (c :: s) sub) eqn:Hm.
      * destruct i as [|i]; simpl.
        -- intros [= <-] Hq. apply list_elem_of_lookup_2 in Hq.
           apply occ_scan_lower in Hq; [|lia]. unfold width. lia.
        -- apply IH. lia.
      * apply IH. lia.
    + apply IH. lia.
Qed.

(** Every occurrence at or after the skipped stretch is selected or starts
    inside a selected one. *)
Lemma occ_scan_leftmost (sub : pystr) (skip pos : nat) (s : pystr) (i : nat) :
  skip ≤ i → occurs_at s sub i →
  ∃ p, p ∈ occ_scan sub skip pos s ∧ p ≤ pos + i < p + width sub.
Proof.
  revert skip pos i. induction s as [|c s IH]; intros skip pos i Hskip Ho; scan_step.
  - apply occurs_at_nil in Ho as [-> ->]. simpl. exists pos.
    split; [apply list_elem_of_singleton; done | unfold width; simpl; lia].
  - destruct skip as [|k].
    + destruct (startswith (c :: s) sub) eqn:Hm.
      * destruct i as [|j].
        -- exists pos. split; [apply list_elem_of_here | pose proof (width_pos sub); lia].
        -- apply occurs_at_cons in Ho.
           destruct (decide (length sub - 1 ≤ j)) as [Hj|Hj].
           ++ destruct (IH (length sub - 1) (S pos) j Hj Ho) as (p & Hp & Hr).
              exists p. split; [by apply list_elem_of_further | lia].
           ++ exists pos. split; [apply list_elem_of_here | unfold width; lia].
      * destruct i as [|j].
        -- apply occurs_at_zero in Ho. congruence.
        -- apply occurs_at_cons in Ho.
           destruct (IH 0 (S pos) j ltac:(lia) Ho) as (p & Hp & Hr).
           exists p. split; [done | lia].
    + destruct i as [|j]; [lia|]. apply occurs_at_cons in Ho.
      destruct (IH k (S pos) j ltac:(lia) Ho) as (p & Hp & Hr).
      exists p. split; [done | lia].
Qed.

(** The positions the scan selects are the non-overlapping occurrences
    taken left to right. *)
Lemma occurrences_left_to_right (s sub : pystr) :
  left_to_right s sub (occurrences s sub).
Proof.
  unfold occurrences. split.
  - intros p Hp. apply occ_scan_occurs in Hp as (i & -> & _ & Ho); [done | lia].
  - intros i p q. apply occ_scan_apart. lia.
  - intros q Ho. destruct (occ_scan_leftmost sub 0 0 s q ltac:(lia) Ho) as (p & ? & ?).
    exists p. split; [done | lia].
Qed.

Lemma occurs_in_at (s sub : pystr) :
  occurs_in s sub ↔ ∃ i, occurs_at s sub i.
Proof.
  split.
  - intros (pre & post & ->). exists (length pre). split.
    + rewrite length_app. lia.
    + rewrite drop_app_length. by exists post.
  - intros (i & _ & post & Hd). exists (take i s), post.
    by rewrite <- Hd, take_drop.
Qed.

(** The count is zero exactly when the search string is not a substring. *)
Lemma str_count_zero (s sub : pystr) :
  str_count s sub = 0 ↔ ¬ occurs_in s sub.
Proof.
  unfold str_count. rewrite (count_scan_occ sub 0 0 s), occurs_in_at.
  fold (occurrences s sub). pose proof (occurrences_left_to_right s sub) as [Ho _ Hl].
  split.
  - intros Hlen%nil_length_inv (q & Hq). destruct (Hl q Hq) as (p & Hp & _).
    rewrite Hlen in Hp. by apply elem_of_nil in Hp.
  - intros Hno. destruct (occurrences s sub) as [|p ps] eqn:E; [done|].
    exfalso. apply Hno. exists p. apply Ho. apply list_elem_of_here.
Qed.

(** *** The left-to-right occurrences are unique *)





(** *** Replacing is splicing at the selected positions *)

Lemma splice_cons (c : N) (s : pystr) (n : nat) (new : pystr) (pos : nat) (ps : list nat) :
  (∀ p, head ps = Some p → S pos ≤ p) →
  splice (c :: s) n new pos ps = c :: splice s n new (S pos) ps.
Proof.
  destruct ps as [|p ps]; simpl; [done|]. intros Hp.
  specialize (Hp p eq_refl).
  replace (p - pos) with (S (p - S pos)) by lia. done.
Qed.

Lemma replace_scan_splice (old new : pystr) (skip pos : nat) (s : pystr) :
  skip ≤ length old - 1 →
  replace_scan old new skip s =
  splice (drop skip s) (length old) new (pos + skip) (occ_scan old skip pos s).
Proof.
  revert skip pos. induction s as [|c s IH]; intros skip pos Hskip; scan_step.
  - rewrite drop_nil. destruct (is_empty old) eqn:He; [|done].
    apply is_empty_true in He. subst old. simpl in *.
    replace (pos - (pos + skip)) with 0 by lia. simpl. by rewrite app_nil_r.
  - destruct skip as [|k].
    + rewrite drop_0, Nat.add_0_r.
      assert (∀ k', k' ≤ length old - 1 → ∀ p,
        head (occ_scan old k' (S pos) s) = Some p → S pos ≤ p) as Hhd.
      { intros k' Hk' p Hp. apply head_Some_elem_of in Hp.
        apply occ_scan_lower in Hp; lia. }
      destruct (startswith (c :: s) old) eqn:Hm.
      * cbn [splice]. rewrite Nat.sub_diag, take_0. cbn [app]. f_equal.
        rewrite (IH _ (S pos)) by lia.
        destruct old as [|a old']; cbn [is_empty length Nat.sub].
        -- cbn [app Nat.add drop]. rewrite Nat.add_0_r.
           rewrite splice_cons; [done|]. apply (Hhd 0). simpl. lia.
        -- cbn [app]. rewrite Nat.sub_0_r. cbn [Nat.add drop].
           f_equal. lia.
      * rewrite (IH _ (S pos)) by lia. rewrite drop_0, Nat.add_0_r.
        rewrite splice_cons; [done|]. apply (Hhd 0). lia.
    + rewrite (IH _ (S pos)) by lia. cbn [drop]. f_equal. lia.
Qed.

Lemma str_replace_splice (s old new : pystr) :
  str_replace s old new = splice s (length old) new 0 (occurrences s old).
Proof.
  unfold str_replace, occurrences.
  rewrite (replace_scan_splice old new 0 0 s) by lia. by rewrite drop_0.
Qed.

(** *** An empty search string *)

Lemma count_scan_empty (s : pystr) : count_scan [] 0 s = S (length s).
Proof. induction s as [|c s IH]; scan_step; [done|]. cbn. by rewrite IH. Qed.

Lemma replace_scan_empty (new s : pystr) :
  replace_scan [] new 0 s = new ++ flat_map (λ c, c :: new) s.
Proof.
  induction s as [|c s IH]; scan_step; cbn; [by rewrite app_nil_r|].
  by rewrite IH.
Qed.

Lemma str_replace_absent (s old new : pystr) :
  str_count s old = 0 → str_replace s old new = s.
Proof.
  intros Hc. rewrite str_replace_splice. unfold str_count in Hc.
  rewrite (count_scan_occ old 0 0 s) in Hc. fold (occurrences s old) in Hc.
  apply nil_length_inv in Hc. by rewrite Hc.
Qed.

(** ** Dictionaries *)

Lemma dict_get_set {V} (d : dict V) (k k' : pystr) (v : V) :
  dict_get (dict_set d k v) k' = if decide (k = k') then Some v else dict_get d k'.
Proof.
  induction d as [|[k0 v0] d IH]; simpl.
  - by destruct (decide (k = k')).
  - destruct (decide (k0 = k)) as [->|Hne]; simpl.
    + by destruct (decide (k = k')).
    + rewrite IH. destruct (decide (k0 = k')) as [->|]; [|done].
      by destruct (decide (k = k')).
Qed.

Lemma dict_get_set_eq {V} (d : dict V) (k : pystr) (v : V) :
  dict_get (dict_set d k v) k = Some v.
Proof. rewrite dict_get_set. by destruct (decide (k = k)). Qed.

Lemma dict_get_set_ne {V} (d : dict V) (k k' : pystr) (v : V) :
  k ≠ k' → dict_get (dict_set d k v) k' = dict_get d k'.
Proof. intros. rewrite dict_get_set. by destruct (decide (k = k')). Qed.

Lemma dict_get_None {V} (d : dict V) (k : pystr) :
  dict_get d k = None ↔ k ∉ keys d.
Proof.
  induction d as [|[k0 v0] d IH]; simpl.
  - split; [intros _; apply not_elem_of_nil | done].
  - rewrite not_elem_of_cons. destruct (decide (k0 = k)) as [->|Hne].
    + split; [done | by intros [? _]].
    + rewrite IH. split; [by intros ?; split | by intros [_ ?]].
Qed.

Lemma dict_get_Some_keys {V} (d : dict V) (k : pystr) :
  is_Some (dict_get d k) ↔ k ∈ keys d.
Proof.
  rewrite <- not_eq_None_Some, dict_get_None.
  destruct (decide (k ∈ keys d)) as [Hin|Hn]; [split; [done | by intros _ Hn]|].
  split; [intros Hx; by destruct (Hx Hn) | done].
Qed.

Lemma keys_set {V} (d : dict V) (k : pystr) (v : V) :
  keys (dict_set d k v) = if decide (k ∈ keys d) then keys d else keys d ++ [k].
Proof.
  induction d as [|[k0 v0] d IH]; simpl.
  - destruct (decide (k ∈ [])) as [Hin|]; [by apply elem_of_nil in Hin | done].
  - destruct (decide (k0 = k)) as [->|Hne]; simpl.
    + destruct (decide (k ∈ k :: keys d)) as [|Hn]; [done|].
      exfalso. apply Hn, list_elem_of_here.
    + rewrite IH.
      destruct (decide (k ∈ keys d)) as [Hin|Hn].
      * destruct (decide (k ∈ k0 :: keys d)) as [|Hn']; [done|].
        exfalso. by apply Hn', list_elem_of_further.
      * destruct (decide (k ∈ k0 :: keys d)) as [[->|Hin']%elem_of_cons|]; done.
Qed.

Lemma keys_set_NoDup {V} (d : dict V) (k : pystr) (v : V) :
  NoDup (keys d) → NoDup (keys (dict_set d k v)).
Proof.
  intros Hd. rewrite keys_set. destruct (decide (k ∈ keys d)); [done|].
  apply list.NoDup_app. split; [done|]. split; [|apply NoDup_singleton].
  by intros x Hx ->%list_elem_of_singleton.
Qed.

Lemma keys_set_elem {V} (d : dict V) (k x : pystr) (v : V) :
  x ∈ keys (dict_set d k v) ↔ x = k ∨ x ∈ keys d.
Proof.
  rewrite keys_set. destruct (decide (k ∈ keys d)).
  - split; [auto | by intros [->|?]].
  - rewrite elem_of_app, list_elem_of_singleton. tauto.
Qed.

(** ** The rule applier *)

Lemma apply_rules_snoc (text : pystr) (rs : list Replacement) (r : Replacement) :
  apply_rules text (rs ++ [r]) = apply_rule (apply_rules text rs) r.
Proof. unfold apply_rules. by rewrite fold_left_app. Qed.

Lemma apply_rules_app (text : pystr) (rs1 rs2 : list Replacement) :
  apply_rules text (rs1 ++ rs2) = fold_left apply_rule rs2 (apply_rules text rs1).
Proof. unfold apply_rules. by rewrite fold_left_app. Qed.

Lemma fold_rules_NoDup (rs : list Replacement) (st : pystr * dict nat) :
  NoDup (keys (snd st)) → NoDup (keys (snd (fold_left apply_rule rs st))).
Proof.
  revert st. induction rs as [|r rs IH]; intros [t d] Hd; simpl; [done|].
  apply IH. simpl. by apply keys_set_NoDup.
Qed.

Lemma fold_rules_keys (rs : list Replacement) (st : pystr * dict nat) (k : pystr) :
  k ∈ keys (snd (fold_left apply_rule rs st)) ↔ k ∈ map name rs ∨ k ∈ keys (snd st).
Proof.
  revert st. induction rs as [|r rs IH]; intros [t d]; simpl.
  - rewrite elem_of_nil. tauto.
  - rewrite IH. simpl. rewrite keys_set_elem, elem_of_cons. tauto.
Qed.

Lemma fold_rules_get_other (rs : list Replacement) (st : pystr * dict nat) (k : pystr) :
  (∀ r, r ∈ rs → name r ≠ k) →
  dict_get (snd (fold_left apply_rule rs st)) k = dict_get (snd st) k.
Proof.
  revert st. induction rs as [|r rs IH]; intros [t d] Hne; simpl; [done|].
  rewrite IH.
  - simpl. apply dict_get_set_ne, Hne, list_elem_of_here.
  - intros r' Hr'. by apply Hne, list_elem_of_further.
Qed.

Lemma fold_rules_text (rs : list Replacement) (st : pystr * dict nat) :
  fst (fold_left apply_rule rs st) =
  fold_left (λ t r, str_replace t (search r) (replace r)) rs (fst st).
Proof.
  revert st. induction rs as [|r rs IH]; intros [t d]; simpl; [done|].
  rewrite IH. simpl. f_equal. unfold truth.
  destruct (Nat.eqb_spec (str_count t (search r)) 0) as [Hz|]; simpl; [|done].
  by rewrite str_replace_absent.
Qed.

Lemma zero_fold_get (rs : list Replacement) (d : dict nat) (k : pystr) :
  dict_get (fold_left (λ d r, dict_set d (name r) 0) rs d) k =
  if decide (k ∈ map name rs) then Some 0 else dict_get d k.
Proof.
  revert d. induction rs as [|r rs IH]; intros d; simpl.
  - destruct (decide (k ∈ [])) as [Hin|]; [by apply elem_of_nil in Hin | done].
  - rewrite IH, dict_get_set.
    destruct (decide (k ∈ map name rs)) as [Hin|Hn].
    + destruct (decide (k ∈ name r :: map name rs)) as [|Hn']; [done|].
      exfalso. by apply Hn', list_elem_of_further.
    + destruct (decide (name r = k)) as [<-|Hne].
      * destruct (decide (name r ∈ name r :: map name rs)) as [|Hn']; [done|].
        exfalso. apply Hn', list_elem_of_here.
      * destruct (decide (k ∈ name r :: map name rs)) as [[->|?]%elem_of_cons|]; done.
Qed.

Lemma fold_rules_absent (rs : list Replacement) (text : pystr) (d : dict nat) :
  (∀ r, r ∈ rs → ¬ occurs_in text (search r)) →
  fold_left apply_rule rs (text, d) =
  (text, fold_left (λ d r, dict_set d (name r) 0) rs d).
Proof.
  revert d. induction rs as [|r rs IH]; intros d Hno; simpl; [done|].
  assert (str_count text (search r) = 0) as Hz.
  { apply str_count_zero, Hno, list_elem_of_here. }
  rewrite Hz. simpl. apply IH. intros r' Hr'. by apply Hno, list_elem_of_further.
Qed.

(** Adding the counts of one file to the totals (lines 121-122) succeeds
    when every counted name has a total, keeps the names and their order,
    and adds to each total the count recorded under its name. *)
Lemma add_counts_spec (counts totals : dict nat) :
  NoDup (keys counts) →
  (∀ k, k ∈ keys counts → k ∈ keys totals) →
  ∃ totals',
    add_counts totals counts = Ok totals' ∧
    keys totals' = keys totals ∧
    ∀ k, dict_get totals' k = (λ t, t + default 0 (dict_get counts k)) <$> dict_get totals k.
Proof.
  revert totals. induction counts as [|[k0 c0] cs IH]; intros totals Hnd Hsub.
  - exists totals. split; [done|]. split; [done|].
    intros k. simpl. destruct (dict_get totals k); simpl; [f_equal; lia | done].
  - simpl in Hnd. apply list.NoDup_cons in Hnd as [Hk0 Hnd].
    assert (k0 ∈ keys totals) as Hin by apply Hsub, list_elem_of_here.
    destruct (dict_get totals k0) as [t|] eqn:Ht;
      [|by apply dict_get_None in Ht].
    cbn [add_counts]. unfold add_count. cbn [fst snd]. rewrite Ht.
    destruct (IH (dict_set totals k0 (t + c0)) Hnd) as (totals' & Hadd & Hkeys & Hget).
    { intros k Hk. apply keys_set_elem. right. by apply Hsub, list_elem_of_further. }
    exists totals'. split; [done|]. split.
    { rewrite Hkeys, keys_set. by destruct (decide (k0 ∈ keys totals)). }
    intros k. rewrite Hget, dict_get_set. simpl.
    destruct (decide (k0 = k)) as [<-|Hne].
    + apply dict_get_None in Hk0. rewrite Hk0, Ht. simpl. f_equal. lia.
    + done.
Qed.

(** ** What the rule applier guarantees *)

(** C2, as the specification states it, fails: on the text [abc] a rule
    with an empty search string and the replacement [X] changes the text
    and records a count that is not zero. *)
Lemma C2_empty_search_counterexample :
  ¬ (∀ (text : pystr) (r : Replacement), search r = [] →
       fst (apply_rules text [r]) = text ∧
       dict_get (snd (apply_rules text [r])) (name r) = Some 0).
Proof.
  intros Hclaim.
  destruct (Hclaim (py "abc") {| name := py "x"; search := []; replace := py "X" |} eq_refl)
    as [Htext _].
  vm_compute in Htext. discriminate.
Qed.

(** C2, as the code behaves: a rule whose search string is empty matches before
    every character of the current text and once at its end: the recorded
    count is the length of the text plus one, and the new text is the
    replacement string followed by every character of the text, each
    followed by the replacement string. *)
Theorem C2_empty_search_matches_everywhere
    (current : pystr) (counts : dict nat) (r : Replacement) :
  search r = [] →
  apply_rule (current, counts) r =
  (replace r ++ flat_map (λ c, c :: replace r) current,
   dict_set counts (name r) (S (length current))).
Proof.
  intros He. unfold apply_rule, str_count, str_replace. rewrite He.
  rewrite count_scan_empty, replace_scan_empty. done.
Qed.

Lemma C2_empty_search_matches_everywhere_witness :
  apply_rule (py "abc", []) {| name := py "x"; search := []; replace := py "X" |} =
  (py "XaXbXcX", [(py "x", 4)]).
Proof.
  exact (C2_empty_search_matches_everywhere (py "abc") []
           {| name := py "x"; search := []; replace := py "X" |} eq_refl).
Defined.


(** C9: when no rule's search string occurs in the text, the rule applier
    returns the text unchanged, records a count for every rule, and every
    recorded count is zero. *)
Theorem C9_idempotent_without_occurrences (text : pystr) (rs : list Replacement) :
  (∀ r, r ∈ rs → ¬ occurs_in text (search r)) →
  fst (apply_rules text rs) = text ∧
  (∀ r, r ∈ rs → dict_get (snd (apply_rules text rs)) (name r) = Some 0) ∧
  (∀ k c, dict_get (snd (apply_rules text rs)) k = Some c → c = 0).
Proof.
  intros Hno. unfold apply_rules. rewrite (fold_rules_absent _ _ _ Hno). cbn [fst snd].
  split; [done|]. split.
  - intros r Hr. rewrite zero_fold_get.
    destruct (decide (name r ∈ map name rs)) as [|Hn]; [done|].
    exfalso. apply Hn. apply list_elem_of_fmap. eauto.
  - intros k c. rewrite zero_fold_get.
    destruct (decide (k ∈ map name rs)); [congruence | done].
Qed.

Lemma C9_idempotent_without_occurrences_witness :
  fst (apply_rules two_comptimes [ {| name := py "x"; search := py "alias "; replace := py "comptime " |} ])
  = two_comptimes.
Proof.
  apply (C9_idempotent_without_occurrences two_comptimes
           [ {| name := py "x"; search := py "alias "; replace := py "comptime " |} ]).
  intros r Hr. apply list_elem_of_singleton in Hr. subst r.
  apply str_count_zero. vm_compute. reflexivity.
Defined.

(** C10: when several rules share a name, the counts of one file hold a
    single entry under that name, and it is the count of the last of
    them, taken on the text as the rules before it left it; the text
    still goes through the replacement of every rule; and the run-wide
    total under that name grows by that last count only. *)
Theorem C10_last_rule_of_a_name_wins
    (text : pystr) (rs1 rs2 : list Replacement) (r : Replacement) :
  (∀ r', r' ∈ rs2 → name r' ≠ name r) →
  fst (apply_rules text (rs1 ++ r :: rs2)) =
    fold_left (λ t r, str_replace t (search r) (replace r)) (rs1 ++ r :: rs2) text ∧
  NoDup (keys (snd (apply_rules text (rs1 ++ r :: rs2)))) ∧
  dict_get (snd (apply_rules text (rs1 ++ r :: rs2))) (name r) =
    Some (str_count (fst (apply_rules text rs1)) (search r)) ∧
  ∀ totals,
    (∀ k, k ∈ keys (snd (apply_rules text (rs1 ++ r :: rs2))) → k ∈ keys totals) →
    ∃ totals',
      add_counts totals (snd (apply_rules text (rs1 ++ r :: rs2))) = Ok totals' ∧
      dict_get totals' (name r) =
        (λ t, t + str_count (fst (apply_rules text rs1)) (search r)) <$>
        dict_get totals (name r).
Proof.
  intros Hlast.
  assert (NoDup (keys (snd (apply_rules text (rs1 ++ r :: rs2))))) as Hnd.
  { apply fold_rules_NoDup. simpl. apply NoDup_nil_2. }
  assert (dict_get (snd (apply_rules text (rs1 ++ r :: rs2))) (name r) =
          Some (str_count (fst (apply_rules text rs1)) (search r))) as Hget.
  { rewrite apply_rules_app. cbn [fold_left].
    rewrite fold_rules_get_other by done.
    destruct (apply_rules text rs1) as [t d]. cbn [apply_rule fst snd].
    apply dict_get_set_eq. }
  split; [apply (fold_rules_text _ (text, []))|].
  split; [done|]. split; [done|].
  intros totals Hsub.
  destruct (add_counts_spec _ totals Hnd Hsub) as (totals' & Hadd & _ & Htot).
  exists totals'. split; [done|]. by rewrite Htot, Hget.
Qed.

Lemma C10_last_rule_of_a_name_wins_witness :
  dict_get
    (snd (apply_rules (py "aab")
            ([ {| name := py "x"; search := py "a"; replace := py "b" |} ] ++
             {| name := py "x"; search := py "b"; replace := py "c" |} :: [])))
    (py "x") = Some 3.
Proof.
  apply (C10_last_rule_of_a_name_wins (py "aab")
           [ {| name := py "x"; search := py "a"; replace := py "b" |} ] []
           {| name := py "x"; search := py "b"; replace := py "c" |}).
  intros r' Hr'. apply elem_of_nil in Hr'. destruct Hr'.
Defined.

Example spec_example_alias_to_comptime :
  apply_rules two_aliases
    [ {| name := py "x"; search := py "alias "; replace := py "comptime " |} ] =
  (two_comptimes, [(py "x", 2)]).
Proof. reflexivity. Qed.

Example duplicate_names_counts :
  apply_rules (py "aab")
    [ {| name := py "x"; search := py "a"; replace := py "b" |};
      {| name := py "x"; search := py "b"; replace := py "c" |} ] =
  (py "ccc", [(py "x", 3)]).
Proof. reflexivity. Qed.
Example count_alias :
  str_count (py "alias Foo = Int") (py "alias ") = 1.
Proof. reflexivity. Qed.

Example count_overlap : str_count (py "aaaaa") (py "aa") = 2.
Proof. reflexivity. Qed.

Example replace_overlap : str_replace (py "aaaaa") (py "aa") (py "b") = py "bba".
Proof. reflexivity. Qed.

Example count_empty_sub : str_count (py "abc") [] = 4.
Proof. reflexivity. Qed.

Example replace_empty_old : str_replace (py "abc") [] (py "X") = py "XaXbXcX".
Proof. reflexivity. Qed.

(** ** The run *)

Section Run.
Context `{Runtime}.

Lemma bind_run {A B} (m : M A) (k : A → M B) (w : world) :
  (m ≫= k) w =
  match m w with
  | (Ok a, w') => k a w'
  | (Abort o, w') => (Abort o, w')
  end.
Proof. reflexivity. Qed.

Lemma load_config_run (p : path) (w : world) (text : pystr) (data : dict toml) :
  universal_newlines <$> disk w p = Some text →
  tomllib_loads text = Some data →
  load_config p w = (config_of data, log (EvReadText p (Some text)) w).
Proof.
  intros Hread Hload. unfold load_config. rewrite bind_run.
  unfold read_text. rewrite Hread, Hload. reflexivity.
Qed.

Lemma main_loaded (args : Args) (w : world) (text : pystr) (data : dict toml)
    (settings : Settings) (rs : list Replacement) :
  dry_run args || apply args = true →
  universal_newlines <$> disk w (config args) = Some text →
  tomllib_loads text = Some data →
  config_of data = Ok (settings, rs) →
  main_body args w =
  match directories settings with
  | [] => (Abort (SystemExit no_directories_message),
           log (EvReadText (config args) (Some text)) w)
  | _ :: _ =>
      (for_each (visit_directory args settings rs (cwd w))
         (directories settings) (zero_counts rs) ≫= λ totals, print (summary_lines totals))
        (log (EvReadText (config args) (Some text)) w)
  end.
Proof.
  intros Hflags Hread Hload Hcfg. unfold main_body.
  replace (negb (dry_run args) && negb (apply args)) with false
    by (destruct (dry_run args), (apply args); done).
  rewrite bind_run, (load_config_run _ _ _ _ Hread Hload), Hcfg.
  destruct (directories settings); reflexivity.
Qed.

Lemma logs_app (es1 es2 : list event) (w : world) :
  logs (es1 ++ es2) w = logs es2 (logs es1 w).
Proof. unfold logs. by rewrite fold_left_app. Qed.


(** *** Printing *)

Lemma emit_nil (w : world) : emit [] w = w.
Proof. destruct w. unfold emit. simpl. by rewrite app_nil_r. Qed.

Lemma emit_emit (ls1 ls2 : list line) (w : world) :
  emit ls2 (emit ls1 w) = emit (ls1 ++ ls2) w.
Proof. unfold emit. simpl. by rewrite app_assoc. Qed.

Lemma print_cons (l : line) (ls : list line) (w : world) :
  print (l :: ls) w =
  match stdout_fails w (stdout w) l with
  | None => print ls (emit [l] w)
  | Some r => (Abort (Uncaught (print_exception r)), w)
  end.
Proof.
  cbn [print]. rewrite bind_run. unfold print_line.
  by destruct (stdout_fails w (stdout w) l).
Qed.

(** Lines the stream takes are all printed. *)
Lemma print_accepted (ls : list line) (w : world) :
  prints w ls → print ls w = (Ok tt, emit ls w).
Proof.
  unfold prints. revert w. induction ls as [|l ls IH]; intros w.
  - intros _. by rewrite emit_nil.
  - intros [Hl Hls]. rewrite print_cons, Hl, IH; [by rewrite emit_emit | done].
Qed.

(** What [print] leaves on the stream: all the lines when it returns, and
    fewer when it raises; what it raises comes from the stream. *)
Lemma print_cases (ls : list line) (w : world) :
  (print ls w = (Ok tt, emit ls w)) ∨
  (∃ done r, print ls w = (Abort (Uncaught (print_exception r)), emit done w) ∧
             done `prefix_of` ls ∧ done ≠ ls).
Proof.
  revert w. induction ls as [|l ls IH]; intros w.
  - left. by rewrite emit_nil.
  - rewrite print_cons. destruct (stdout_fails w (stdout w) l) as [r|].
    + right. exists [], r. rewrite emit_nil. split; [done|].
      split; [apply prefix_nil | done].
    + destruct (IH (emit [l] w)) as [->|(done & r & -> & Hpre & Hne)].
      * left. by rewrite emit_emit.
      * right. exists (l :: done), r. rewrite emit_emit.
        split; [done|]. split; [by apply prefix_cons | congruence].
Qed.

(** [print] returns only when the stream took every line. *)
Lemma print_returns (ls : list line) (u : unit) (w w' : world) :
  print ls w = (Ok u, w') → prints w ls ∧ w' = emit ls w.
Proof.
  unfold prints. revert w. induction ls as [|l ls IH]; intros w.
  - intros [= _ <-]. by rewrite emit_nil.
  - rewrite print_cons. destruct (stdout_fails w (stdout w) l) eqn:Hl; [done|].
    intros [Hacc ->]%IH. by rewrite emit_emit.
Qed.



Lemma dict_set_elem {V} (d : dict V) (k : pystr) (v : V) (kv : pystr * V) :
  kv ∈ dict_set d k v → snd kv = v ∨ kv ∈ d.
Proof.
  induction d as [|[k0 v0] d IH]; simpl.
  - intros ->%list_elem_of_singleton. by left.
  - destruct (decide (k0 = k)) as [->|Hne].
    + intros [->|Hin]%elem_of_cons; [by left | right; by apply list_elem_of_further].
    + intros [->|Hin]%elem_of_cons; [right; apply list_elem_of_here|].
      destruct (IH Hin); [by left | right; by apply list_elem_of_further].
Qed.

Lemma zero_counts_values (rs : list Replacement) (kv : pystr * nat) :
  kv ∈ zero_counts rs → snd kv = 0.
Proof.
  unfold zero_counts.
  assert (∀ d, (∀ kv, kv ∈ d → snd kv = 0) →
    ∀ kv, kv ∈ fold_left (λ d r, dict_set d (name r) 0) rs d → snd kv = 0) as Hgen.
  { induction rs as [|r rs IH]; intros d Hd kv'; simpl; [apply Hd|].
    apply IH. intros kv'' [?|?]%dict_set_elem; auto. }
  apply Hgen. by intros ? ?%elem_of_nil.
Qed.

Lemma zero_counts_keys (rs : list Replacement) (k : pystr) :
  k ∈ keys (zero_counts rs) ↔ k ∈ map name rs.
Proof.
  rewrite <- dict_get_Some_keys. unfold zero_counts. rewrite zero_fold_get.
  destruct (decide (k ∈ map name rs)) as [Hin|Hn]; simpl.
  - split; [done | by intros _; eexists].
  - split; [by intros [? ?] | done].
Qed.

(** C6: when the loaded configuration has an empty list of directories,
    which is also what an absent [directories] key gives, the run ends
    with the message about missing directories and exit status 1; the
    only file it has read is the configuration file, no directory has
    been checked or walked, nothing has been written. *)
Theorem C6_empty_directories_fail_fast (args : Args) (w : world) (text : pystr)
    (data : dict toml) (settings : Settings) (rs : list Replacement) :
  dry_run args || apply args = true →
  universal_newlines <$> disk w (config args) = Some text →
  tomllib_loads text = Some data →
  config_of data = Ok (settings, rs) →
  directories settings = [] ∨ directories_key_absent data →
  main args w = (Failed (SystemExit no_directories_message),
                 log (EvReadText (config args) (Some text)) w) ∧
  exit_status (fst (main args w)) = 1 ∧
  trace (snd (main args w)) = trace w ++ [EvReadText (config args) (Some text)] ∧
  disk (snd (main args w)) = disk w.
Proof.
  intros Hflags Hread Hload Hcfg Hempty.
  assert (directories settings = []) as Hdirs.
  { destruct Hempty as [|Habs]; [done|].
    unfold config_of in Hcfg.
    destruct (get_method _) as [tbl|] eqn:Hgm; [|done].
    destruct (py_iter (get_or tbl (py "include_extensions") _)); [|done].
    destruct (py_iter (get_or tbl (py "directories") _)) as [dirs|] eqn:Hd; [|done].
    destruct (py_iter (get_or data (py "replacements") _)); [|done].
    destruct (load_replacements _); [|done].
    injection Hcfg as <- _. cbn [directories].
    assert (dict_get tbl (py "directories") = None) as Hnone.
    { destruct (dict_get data (py "settings")) as [v|] eqn:Hs.
      - destruct (truthy_toml v).
        + destruct v; try done. injection Hgm as ->. by apply Habs.
        + by injection Hgm as <-.
      - by injection Hgm as <-. }
    unfold get_or in Hd. rewrite Hnone in Hd. by injection Hd as <-. }
  assert (main args w = (Failed (SystemExit no_directories_message),
            log (EvReadText (config args) (Some text)) w)) as Hmain.
  { unfold main. rewrite (main_loaded _ _ _ _ _ _ Hflags Hread Hload Hcfg), Hdirs. done. }
  rewrite Hmain. done.
Qed.



(** *** How the world evolves *)

Lemma writes_guarded_no_write (a : bool) (tr : list event) :
  (∀ e, e ∈ tr → ¬ is_write e) → writes_guarded a tr.
Proof.
  intros Hno pre p data post ->. exfalso.
  apply (Hno (EvWriteText p data)); [|done].
  apply elem_of_app. right. apply list_elem_of_here.
Qed.

Lemma writes_guarded_app (a : bool) (tr1 tr2 : list event) :
  writes_guarded a tr1 → writes_guarded a tr2 → writes_guarded a (tr1 ++ tr2).
Proof.
  intros H1 H2 pre p data post Heq.
  apply List.app_eq_app in Heq as [l [[-> Hl]|[-> ->]]].
  - destruct l as [|e l].
    + simpl in Hl. destruct (H2 [] p data post (eq_sym Hl)) as (_ & pre' & cur & Hp & _).
      by destruct pre'.
    + injection Hl as <- ->. by apply (H1 pre p data l).
  - destruct (H2 l p data post eq_refl) as (Ha & pre' & cur & -> & Hne).
    split; [done|]. exists (tr1 ++ pre'), cur. by rewrite app_assoc.
Qed.

Lemma writes_guarded_pair (p : path) (current data : pystr) :
  data ≠ current →
  writes_guarded true [EvReadText p (Some current); EvWriteText p data].
Proof.
  intros Hne pre q d post Heq.
  destruct pre as [|e1 [|e2 pre]]; simplify_eq/=.
  - split; [done|]. by exists [], current.
  - by destruct pre.
Qed.

Lemma evolves_refl (a : bool) (w : world) : evolves a w w.
Proof.
  repeat (split; [done|]). exists []. rewrite app_nil_r. split; [done|].
  split; [|done]. apply writes_guarded_no_write. by intros e ?%elem_of_nil.
Qed.

Lemma evolves_trans (a : bool) (w1 w2 w3 : world) :
  evolves a w1 w2 → evolves a w2 w3 → evolves a w1 w3.
Proof.
  intros (Hc1 & Hd1 & Ho1 & Hw1 & tr1 & Ht1 & Hg1 & Hf1)
         (Hc2 & Hd2 & Ho2 & Hw2 & tr2 & Ht2 & Hg2 & Hf2).
  split; [congruence|]. split; [congruence|]. split; [congruence|].
  split; [congruence|]. exists (tr1 ++ tr2).
  split; [by rewrite Ht2, Ht1, app_assoc|].
  split; [by apply writes_guarded_app|].
  intros p Hp. rewrite Hf2, Hf1; [done| |].
  - intros data Hin. apply (Hp data), elem_of_app. by left.
  - intros data Hin. apply (Hp data), elem_of_app. by right.
Qed.

(** Logging anything but a write. *)
Lemma evolves_log (a : bool) (e : event) (w : world) :
  ¬ is_write e → evolves a w (log e w).
Proof.
  intros He. repeat (split; [done|]). exists [e]. split; [done|].
  split; [|done]. apply writes_guarded_no_write.
  by intros e' ->%list_elem_of_singleton.
Qed.

Lemma evolves_emit (a : bool) (ls : list line) (w : world) : evolves a w (emit ls w).
Proof.
  repeat (split; [done|]). exists []. split; [by rewrite app_nil_r|].
  split; [|done]. apply writes_guarded_no_write. by intros e ?%elem_of_nil.
Qed.

Lemma evolves_read_text (a : bool) (p : path) (w : world) :
  evolves a w (snd (read_text p w)).
Proof.
  unfold read_text.
  destruct (universal_newlines <$> disk w p); cbn [snd]; apply evolves_log; simpl; tauto.
Qed.

Lemma evolves_bind {A B} (a : bool) (m : M A) (k : A → M B) (w : world) :
  evolves a w (snd (m w)) →
  (∀ x w', evolves a w' (snd (k x w'))) →
  evolves a w (snd ((m ≫= k) w)).
Proof.
  intros Hm Hk. rewrite bind_run. destruct (m w) as [[x|o] w']; simpl in *.
  - eapply evolves_trans; [exact Hm | apply Hk].
  - done.
Qed.

Lemma evolves_for_each {A S} (a : bool) (body : S → A → M S) (l : list A) :
  (∀ s x w, evolves a w (snd (body s x w))) →
  ∀ s w, evolves a w (snd (for_each body l s w)).
Proof.
  intros Hbody. induction l as [|x l IH]; intros s w; cbn [for_each].
  - apply evolves_refl.
  - apply evolves_bind; [apply Hbody | intros; apply IH].
Qed.

(** What lines 113-120 do to the world, case by case: nothing but
    printing; or, in apply mode, a read of the file; or, in apply mode
    and when the text read differs from the new text, that read followed
    by a write of the new text. *)
Lemma report_and_write_cases (args : Args) (repo_root fpath : path)
    (new_text : pystr) (counts : dict nat) (w : world) :
  let w' := snd (report_and_write args repo_root fpath new_text counts w) in
  cwd w' = cwd w ∧ stat w' = stat w ∧ os_walk w' = os_walk w ∧
  writable w' = writable w ∧
  ((trace w' = trace w ∧ disk w' = disk w) ∨
   (apply args = true ∧ any_count counts = true ∧
    trace w' = trace w ++ [EvReadText fpath (universal_newlines <$> disk w fpath)] ∧
    disk w' = disk w ∧
    (universal_newlines <$> disk w fpath = None ∨
     universal_newlines <$> disk w fpath = Some new_text)) ∨
   (apply args = true ∧ any_count counts = true ∧
    ∃ current,
      universal_newlines <$> disk w fpath = Some current ∧ new_text ≠ current ∧
      trace w' = trace w ++ [EvReadText fpath (Some current); EvWriteText fpath new_text] ∧
      ∀ q, q ≠ fpath → disk w' q = disk w q)).
Proof.
  unfold report_and_write.
  destruct (any_count counts); [|by repeat (split; [done|]); left].
  destruct (relative_to fpath repo_root) as [rel|]; [|by repeat (split; [done|]); left].
  rewrite bind_run.
  destruct (print_cases (OutFile rel :: count_lines counts) w)
    as [->|(printed & r & -> & _)]; [|by repeat (split; [done|]); left].
  destruct (apply args); [|by repeat (split; [done|]); left].
  rewrite bind_run. unfold read_text. cbn [disk emit].
  destruct (universal_newlines <$> disk w fpath) as [current|] eqn:Hread.
  - case_bool_decide as Hne.
    + unfold write_text. cbn [writable log emit].
      destruct (writable w fpath); cbn [snd store log emit cwd stat os_walk writable trace disk];
        repeat (split; [done|]); right; right; (split; [done|]); (split; [done|]);
        exists current; (split; [done|]); (split; [done|]).
      * split; [by rewrite <- app_assoc|]. intros q Hq. by destruct (decide (q = fpath)).
      * split; [by rewrite <- app_assoc | done].
    + subst current.
      repeat (split; [done|]). right; left. repeat (split; [done|]). by right.
  - repeat (split; [done|]). right; left. repeat (split; [done|]). by left.
Qed.

Lemma evolves_report_and_write (args : Args) (repo_root fpath : path)
    (new_text : pystr) (counts : dict nat) (w : world) :
  evolves (apply args) w (snd (report_and_write args repo_root fpath new_text counts w)).
Proof.
  destruct (report_and_write_cases args repo_root fpath new_text counts w)
    as (Hc & Hd & Ho & Hw & Hcases).
  repeat (split; [done|]).
  destruct Hcases as [[Ht Hdisk]|[(Ha & _ & Ht & Hdisk & _)|(Ha & _ & cur & Hread & Hne & Ht & Hdisk)]].
  - exists []. rewrite app_nil_r. split; [done|]. split.
    + apply writes_guarded_no_write. by intros e ?%elem_of_nil.
    + intros p _. by rewrite Hdisk.
  - eexists. split; [exact Ht|]. split.
    + apply writes_guarded_no_write. intros e ->%list_elem_of_singleton. simpl; tauto.
    + intros p _. by rewrite Hdisk.
  - eexists. split; [exact Ht|]. split.
    + rewrite Ha. by apply writes_guarded_pair.
    + intros p Hp. apply Hdisk. intros ->. apply (Hp new_text).
      apply list_elem_of_further, list_elem_of_here.
Qed.

Lemma evolves_visit_file (args : Args) (settings : Settings) (rs : list Replacement)
    (repo_root root : path) (totals : dict nat) (fname : pystr) (w : world) :
  evolves (apply args) w
    (snd (visit_file args settings rs repo_root root totals fname w)).
Proof.
  unfold visit_file. destruct (negb _); [apply evolves_refl|].
  apply evolves_bind.
  - unfold process_file. apply evolves_bind; [apply evolves_read_text|].
    intros; apply evolves_refl.
  - intros [new_text counts] w1. apply evolves_bind; [apply evolves_report_and_write|].
    intros _ w2. apply evolves_bind; [apply evolves_refl|].
    intros totals' w3. apply evolves_log. simpl; tauto.
Qed.

Lemma evolves_visit_directory (args : Args) (settings : Settings) (rs : list Replacement)
    (repo_root : path) (totals : dict nat) (rel_dir : toml) (w : world) :
  evolves (apply args) w
    (snd (visit_directory args settings rs repo_root totals rel_dir w)).
Proof.
  unfold visit_directory. destruct rel_dir as [d| | |]; try apply evolves_refl.
  apply evolves_bind.
  { unfold is_dir. destruct (is_dir_answer _); cbn [snd]; apply evolves_log; simpl; tauto. }
  intros found w1. destruct (negb found); [apply evolves_refl|].
  apply evolves_bind; [apply evolves_log; simpl; tauto|].
  intros entries w2. apply evolves_for_each. intros s entry w'.
  apply evolves_for_each. intros; apply evolves_visit_file.
Qed.

Lemma evolves_print (a : bool) (ls : list line) (w : world) :
  evolves a w (snd (print ls w)).
Proof.
  destruct (print_cases ls w) as [->|(printed & r & -> & _)]; apply evolves_emit.
Qed.

Lemma evolves_main (args : Args) (w : world) :
  evolves (apply args) w (snd (main args w)).
Proof.
  assert (evolves (apply args) w (snd (main_body args w))) as Hbody.
  { unfold main_body. destruct (negb (dry_run args) && negb (apply args));
      [apply evolves_refl|].
    apply evolves_bind.
    - unfold load_config. apply evolves_bind; [apply evolves_read_text|].
      intros text w'. destruct (tomllib_loads text); apply evolves_refl.
    - intros [settings rs] w1. destruct (directories settings) eqn:Hdirs;
        [apply evolves_refl|].
      apply evolves_bind.
      + apply evolves_for_each. intros; apply evolves_visit_directory.
      + intros totals w2. apply evolves_print. }
  unfold main. by destruct (main_body args w) as [[?|?] ?].
Qed.

(** C4: in a dry run ([--dry-run] given, [--apply] not) the content of
    every file is at the end what it was at the start and the run makes
    no write at all.  In any run, a write happens only in apply mode and
    directly after a read of the same file that returned a text other
    than the one written; and lines 113-120 write, or change the content
    of a file, only in apply mode, only for the file at hand, only when
    some count of that file is not zero and only when its new text
    differs from the text that is on disk at that moment. *)
Theorem C4_dry_run_never_writes :
  (∀ (args : Args) (w : world),
     dry_run args = true → apply args = false →
     (∀ p, disk (snd (main args w)) p = disk w p) ∧
     ∃ tr, trace (snd (main args w)) = trace w ++ tr ∧
           ∀ p data, EvWriteText p data ∉ tr) ∧
  (∀ (args : Args) (w : world) pre p data post,
     trace (snd (main args w)) = trace w ++ pre ++ EvWriteText p data :: post →
     apply args = true ∧
     ∃ pre' current, pre = pre' ++ [EvReadText p (Some current)] ∧ data ≠ current) ∧
  (∀ (args : Args) (repo_root fpath : path) (new_text : pystr) (counts : dict nat)
     (w : world) (q : path) (data : pystr) (tr : list event),
     trace (snd (report_and_write args repo_root fpath new_text counts w)) = trace w ++ tr →
     EvWriteText q data ∈ tr ∨
     disk (snd (report_and_write args repo_root fpath new_text counts w)) q ≠ disk w q →
     q = fpath ∧ apply args = true ∧ any_count counts = true ∧
     ∃ current, universal_newlines <$> disk w fpath = Some current ∧
                new_text ≠ current).
Proof.
  split; [|split].
  - intros args w _ Happly.
    destruct (evolves_main args w) as (_ & _ & _ & _ & tr & Ht & Hg & Hframe).
    assert (∀ p data, EvWriteText p data ∉ tr) as Hno.
    { intros p data Hin. apply list_elem_of_split in Hin as (pre & post & ->).
      destruct (Hg pre p data post eq_refl) as [Ha _]. congruence. }
    split; [|by exists tr]. intros p. apply Hframe. intros data. apply Hno.
  - intros args w pre p data post Htrace.
    destruct (evolves_main args w) as (_ & _ & _ & _ & tr & Ht & Hg & _).
    rewrite Ht in Htrace. apply app_inv_head in Htrace. by apply (Hg pre p data post).
  - intros args repo_root fpath new_text counts w q data tr Htrace Hchanged.
    destruct (report_and_write_cases args repo_root fpath new_text counts w)
      as (_ & _ & _ & _ & Hcases).
    destruct Hcases as [[Ht Hd]|[(_ & _ & Ht & Hd & _)|(Ha & Hany & cur & Hread & Hne & Ht & Hd)]].
    + rewrite Ht in Htrace. rewrite <- (app_nil_r (trace w)) in Htrace at 1.
      apply app_inv_head in Htrace. subst tr.
      destruct Hchanged as [Hin|Hq]; [by apply elem_of_nil in Hin | by rewrite Hd in Hq].
    + rewrite Ht in Htrace. apply app_inv_head in Htrace. subst tr.
      destruct Hchanged as [Hin|Hq]; [|by rewrite Hd in Hq].
      by apply list_elem_of_singleton in Hin.
    + rewrite Ht in Htrace. apply app_inv_head in Htrace. subst tr.
      assert (q = fpath) as ->.
      { destruct Hchanged as [Hin|Hq].
        - apply elem_of_cons in Hin as [?|Hin]; [done|].
          apply list_elem_of_singleton in Hin. by injection Hin.
        - destruct (decide (q = fpath)) as [|Hqf]; [done|]. by destruct (Hq (Hd q Hqf)). }
      split; [done|]. split; [done|]. split; [done|]. by exists cur.
Qed.

(** *** The totals *)

Lemma sum_counts_app (k : pystr) (cs1 cs2 : list (dict nat)) :
  sum_counts k (cs1 ++ cs2) = sum_counts k cs1 + sum_counts k cs2.
Proof. unfold sum_counts. by rewrite map_app, sum_list_with_app. Qed.

Lemma grown_by_nil (totals : dict nat) : grown_by totals [] totals.
Proof.
  split; [done|]. intros k. unfold sum_counts. simpl.
  destruct (dict_get totals k); simpl; [f_equal; lia | done].
Qed.

Lemma grown_by_app (t0 t1 t2 : dict nat) (cs1 cs2 : list (dict nat)) :
  grown_by t0 cs1 t1 → grown_by t1 cs2 t2 → grown_by t0 (cs1 ++ cs2) t2.
Proof.
  intros [Hk1 Hg1] [Hk2 Hg2]. split; [congruence|].
  intros k. rewrite Hg2, Hg1, sum_counts_app.
  destruct (dict_get t0 k); simpl; [f_equal; lia | done].
Qed.

(** Lines 121-122, when they complete, keep the names and their order and
    add to each total the count recorded under its name. *)
Lemma add_counts_Ok (counts totals totals' : dict nat) :
  NoDup (keys counts) → add_counts totals counts = Ok totals' →
  grown_by totals [counts] totals'.
Proof.
  intros Hnd Hadd.
  assert (keys totals' = keys totals ∧
          ∀ k, dict_get totals' k =
               (λ t, t + default 0 (dict_get counts k)) <$> dict_get totals k) as [Hk Hg].
  { revert totals Hnd Hadd. induction counts as [|[k0 c0] cs IH]; intros totals Hnd Hadd.
    - injection Hadd as <-. split; [done|]. intros k. simpl.
      destruct (dict_get totals k); simpl; [f_equal; lia | done].
    - cbn [add_counts] in Hadd. unfold add_count in Hadd. cbn [fst snd] in Hadd.
      destruct (dict_get totals k0) as [t|] eqn:Ht; [|done].
      simpl in Hnd. apply list.NoDup_cons in Hnd as [Hk0 Hnd].
      destruct (IH _ Hnd Hadd) as [Hk Hg]. split.
      + rewrite Hk, keys_set. destruct (decide (k0 ∈ keys totals)) as [|Hn]; [done|].
        apply dict_get_None in Hn. congruence.
      + intros k. rewrite Hg, dict_get_set. simpl.
        destruct (decide (k0 = k)) as [<-|Hne]; [|done].
        apply dict_get_None in Hk0. rewrite Hk0, Ht. simpl. f_equal. lia. }
  split; [done|]. intros k. rewrite Hg. unfold sum_counts. simpl.
  destruct (dict_get totals k); simpl; [f_equal; lia | done].
Qed.

Lemma apply_rules_keys (text : pystr) (rs : list Replacement) (k : pystr) :
  k ∈ keys (snd (apply_rules text rs)) ↔ k ∈ map name rs.
Proof.
  unfold apply_rules. rewrite fold_rules_keys. simpl. rewrite elem_of_nil. tauto.
Qed.

Lemma apply_rules_NoDup (text : pystr) (rs : list Replacement) :
  NoDup (keys (snd (apply_rules text rs))).
Proof. apply fold_rules_NoDup; simpl; apply NoDup_nil_2. Qed.

(** One iteration of the file loop, when it completes: either the file is
    not selected and nothing happens, or [process_file] returned a text
    and the counts of the file, and the totals have grown by these
    counts. *)
Lemma visit_file_completes (args : Args) (settings : Settings) (rs : list Replacement)
    (repo_root root : path) (totals totals' : dict nat) (fname : pystr) (w w' : world) :
  visit_file args settings rs repo_root root totals fname w = (Ok totals', w') →
  (str_in (extension fname) (include_extensions settings) = false ∧
   totals' = totals ∧ w' = w) ∨
  (str_in (extension fname) (include_extensions settings) = true ∧
   ∃ new_text counts w1 w2,
     process_file (joinpath root fname) rs w = (Ok (new_text, counts), w1) ∧
     report_and_write args repo_root (joinpath root fname) new_text counts w1 = (Ok tt, w2) ∧
     w' = log (EvFileDone (joinpath root fname) counts) w2 ∧
     grown_by totals [counts] totals').
Proof.
  unfold visit_file.
  destruct (str_in _ _); cbn [negb]; [|intros [= <- <-]; by left].
  rewrite bind_run.
  destruct (process_file (joinpath root fname) rs w) as [[[new_text counts]|f] w1] eqn:Hp;
    [|done].
  rewrite bind_run.
  destruct (report_and_write _ _ _ _ _ _) as [[[]|f] w2] eqn:Hr; [|done].
  rewrite bind_run. unfold lift.
  destruct (add_counts totals counts) as [t'|f] eqn:Hadd; [|done].
  unfold done_file. intros [= <- <-]. right. split; [done|].
  exists new_text, counts, w1, w2. split; [done|]. split; [done|]. split; [done|].
  apply add_counts_Ok; [|done].
  unfold process_file in Hp. rewrite bind_run in Hp.
  destruct (read_text _ w) as [[text|f] w0]; [|done].
  cbn [mret M_ret] in Hp. injection Hp as Hp _.
  replace counts with (snd (apply_rules text rs)) by (by rewrite Hp).
  apply apply_rules_NoDup.
Qed.

(** The file loop accumulates what the loop that keeps the per-file
    counts collects. *)
Lemma visit_file_collects (args : Args) (settings : Settings) (rs : list Replacement)
    (repo_root root : path) (totals totals' : dict nat) (fname : pystr) (w w' : world) :
  visit_file args settings rs repo_root root totals fname w = (Ok totals', w') →
  ∃ cs, grown_by totals cs totals' ∧
        ∀ cs0, collect_file args settings rs repo_root root cs0 fname w =
               (Ok (cs0 ++ cs), w').
Proof.
  intros [(Hsel & -> & ->)|(Hsel & new_text & counts & w1 & w2 & Hp & Hr & -> & Hg)]
    %visit_file_completes.
  - exists []. split; [apply grown_by_nil|]. intros cs0.
    unfold collect_file. rewrite Hsel. cbn [negb]. by rewrite app_nil_r.
  - exists [counts]. split; [done|]. intros cs0.
    unfold collect_file. rewrite Hsel. cbn [negb].
    rewrite bind_run, Hp, bind_run, Hr. done.
Qed.

Lemma collects_for_each {A} (body : dict nat → A → M (dict nat))
    (collect : list (dict nat) → A → M (list (dict nat))) (l : list A) :
  (∀ s x w s' w', body s x w = (Ok s', w') →
     ∃ cs, grown_by s cs s' ∧ ∀ cs0, collect cs0 x w = (Ok (cs0 ++ cs), w')) →
  ∀ s w s' w', for_each body l s w = (Ok s', w') →
     ∃ cs, grown_by s cs s' ∧ ∀ cs0, for_each collect l cs0 w = (Ok (cs0 ++ cs), w').
Proof.
  intros Hbody. induction l as [|x l IH]; intros s w s' w'; cbn [for_each].
  - intros [= <- <-]. exists []. split; [apply grown_by_nil|].
    intros cs0. by rewrite app_nil_r.
  - rewrite bind_run. destruct (body s x w) as [[s1|f] w1] eqn:Hb; [|done].
    intros Hrest. destruct (Hbody _ _ _ _ _ Hb) as (cs1 & Hg1 & Hc1).
    destruct (IH _ _ _ _ Hrest) as (cs2 & Hg2 & Hc2).
    exists (cs1 ++ cs2). split; [by eapply grown_by_app|].
    intros cs0. by rewrite bind_run, Hc1, Hc2, app_assoc.
Qed.

Lemma files_loop_collects (args : Args) (settings : Settings) (rs : list Replacement)
    (repo_root root : path) (files : list pystr) (totals totals' : dict nat)
    (w w' : world) :
  for_each (visit_file args settings rs repo_root root) files totals w = (Ok totals', w') →
  ∃ cs, grown_by totals cs totals' ∧
        ∀ cs0, for_each (collect_file args settings rs repo_root root) files cs0 w =
               (Ok (cs0 ++ cs), w').
Proof.
  apply collects_for_each. intros ? ? ? ? ?. apply visit_file_collects.
Qed.

Lemma visit_directory_collects (args : Args) (settings : Settings) (rs : list Replacement)
    (repo_root : path) (totals totals' : dict nat) (rel_dir : toml) (w w' : world) :
  visit_directory args settings rs repo_root totals rel_dir w = (Ok totals', w') →
  ∃ cs, grown_by totals cs totals' ∧
        ∀ cs0, collect_directory args settings rs repo_root cs0 rel_dir w =
               (Ok (cs0 ++ cs), w').
Proof.
  unfold visit_directory, collect_directory. destruct rel_dir as [d| | |]; try done.
  rewrite bind_run.
  destruct (is_dir (joinpath repo_root d) w) as [[found|f] w1] eqn:Hd; [|done].
  destruct found; cbn [negb].
  2: { intros [= <- <-]. exists []. split; [apply grown_by_nil|].
       intros cs0. by rewrite bind_run, Hd, app_nil_r. }
  - rewrite bind_run. cbn [walk]. intros Hloop.
    apply (collects_for_each _
             (λ per_file entry,
                for_each (collect_file args settings rs repo_root (fst entry))
                         (snd entry) per_file)) in Hloop as (cs & Hg & Hc).
    + exists cs. split; [done|]. intros cs0.
      rewrite bind_run, Hd. cbn [negb]. rewrite bind_run. cbn [walk]. apply Hc.
    + intros s entry w2 s' w2'. apply files_loop_collects.
Qed.

Lemma directories_loop_collects (args : Args) (settings : Settings)
    (rs : list Replacement) (repo_root : path) (dirs : list toml)
    (totals totals' : dict nat) (w w' : world) :
  for_each (visit_directory args settings rs repo_root) dirs totals w = (Ok totals', w') →
  ∃ cs, grown_by totals cs totals' ∧
        ∀ cs0, for_each (collect_directory args settings rs repo_root) dirs cs0 w =
               (Ok (cs0 ++ cs), w').
Proof.
  apply collects_for_each. intros ? ? ? ? ?. apply visit_directory_collects.
Qed.

Lemma visit_file_keys (args : Args) (settings : Settings) (rs : list Replacement)
    (repo_root root : path) (totals totals' : dict nat) (fname : pystr) (w w' : world) :
  visit_file args settings rs repo_root root totals fname w = (Ok totals', w') →
  keys totals' = keys totals.
Proof. by intros (cs & [Hk _] & _)%visit_file_collects. Qed.

Lemma visit_directory_keys (args : Args) (settings : Settings) (rs : list Replacement)
    (repo_root : path) (totals totals' : dict nat) (rel_dir : toml) (w w' : world) :
  visit_directory args settings rs repo_root totals rel_dir w = (Ok totals', w') →
  keys totals' = keys totals.
Proof. by intros (cs & [Hk _] & _)%visit_directory_collects. Qed.

Lemma directories_loop_keys (args : Args) (settings : Settings) (rs : list Replacement)
    (repo_root : path) (dirs : list toml) (totals totals' : dict nat) (w w' : world) :
  for_each (visit_directory args settings rs repo_root) dirs totals w = (Ok totals', w') →
  keys totals' = keys totals.
Proof. by intros (cs & [Hk _] & _)%directories_loop_collects. Qed.

(** The run, when it completes: the configuration was loaded, the loop
    over the directories completed, and every line of the summary was
    printed. *)
Lemma main_completes (args : Args) (w : world) :
  fst (main args w) = Completed →
  ∃ text data settings rs totals w2,
    universal_newlines <$> disk w (config args) = Some text ∧
    tomllib_loads text = Some data ∧
    config_of data = Ok (settings, rs) ∧
    for_each (visit_directory args settings rs (cwd w)) (directories settings)
             (zero_counts rs) (log (EvReadText (config args) (Some text)) w) =
      (Ok totals, w2) ∧
    prints w2 (summary_lines totals) ∧
    snd (main args w) = emit (summary_lines totals) w2.
Proof.
  intros Hdone. unfold main in *.
  destruct (main_body args w) as [[[]|f] w'] eqn:Hbody; [|done]. clear Hdone.
  unfold main_body in Hbody.
  destruct (negb (dry_run args) && negb (apply args)); [done|].
  rewrite bind_run in Hbody. unfold load_config in Hbody.
  rewrite bind_run in Hbody. unfold read_text in Hbody.
  destruct (universal_newlines <$> disk w (config args)) as [text|] eqn:Hread; [|done].
  destruct (tomllib_loads text) as [data|] eqn:Hload; [|done].
  unfold lift in Hbody.
  destruct (config_of data) as [[settings rs]|] eqn:Hcfg; [|done].
  destruct (directories settings) as [|d dirs] eqn:Hdirs; [done|].
  rewrite bind_run in Hbody. cbn [log cwd] in Hbody.
  destruct (for_each _ _ _ _) as [[totals|?] w2] eqn:Hloop; [|done].
  exists text, data, settings, rs, totals, w2.
  split; [done|]. split; [done|]. split; [done|]. split; [by rewrite Hdirs|].
  destruct (print (summary_lines totals) w2) as [[u|f] w3] eqn:Hp; [|done].
  destruct u. injection Hbody as <-. by apply print_returns in Hp as [Hacc ->].
Qed.

(** C5: the totals are the sums of the per-file counts, throughout.  An
    iteration of the file loop that completes either skips the file or
    adds to every total the count [process_file] returned for that file
    under the same name.  So the totals after any stretch of the file
    loop or of the loop over the directories, from whatever totals it
    starts with, are these totals plus, name by name, the sum of the
    counts of the files processed in that stretch: the counts that the
    same loop collects when it keeps each file's counts in a list instead
    of adding them.  And when the run completes, the summary printed last
    holds for every rule name the sum of the counts of that name over all
    files processed. *)
Theorem C5_totals_are_sums_of_file_counts :
  (∀ (args : Args) (settings : Settings) (rs : list Replacement) (repo_root root : path)
     (totals totals' : dict nat) (fname : pystr) (w w' : world),
     visit_file args settings rs repo_root root totals fname w = (Ok totals', w') →
     (str_in (extension fname) (include_extensions settings) = false ∧
      totals' = totals ∧ w' = w) ∨
     (str_in (extension fname) (include_extensions settings) = true ∧
      ∃ new_text counts w1,
        process_file (joinpath root fname) rs w = (Ok (new_text, counts), w1) ∧
        keys totals' = keys totals ∧
        ∀ k, dict_get totals' k =
             (λ t, t + default 0 (dict_get counts k)) <$> dict_get totals k)) ∧
  (∀ (args : Args) (settings : Settings) (rs : list Replacement) (repo_root root : path)
     (files : list pystr) (totals totals' : dict nat) (w w' : world),
     for_each (visit_file args settings rs repo_root root) files totals w = (Ok totals', w') →
     ∃ per_file,
       for_each (collect_file args settings rs repo_root root) files [] w =
         (Ok per_file, w') ∧
       grown_by totals per_file totals') ∧
  (∀ (args : Args) (settings : Settings) (rs : list Replacement) (repo_root : path)
     (dirs : list toml) (totals totals' : dict nat) (w w' : world),
     for_each (visit_directory args settings rs repo_root) dirs totals w = (Ok totals', w') →
     ∃ per_file,
       for_each (collect_directory args settings rs repo_root) dirs [] w =
         (Ok per_file, w') ∧
       grown_by totals per_file totals') ∧
  (∀ (args : Args) (w : world),
     fst (main args w) = Completed →
     ∃ text data settings rs totals per_file w2,
       universal_newlines <$> disk w (config args) = Some text ∧
       tomllib_loads text = Some data ∧
       config_of data = Ok (settings, rs) ∧
       for_each (collect_directory args settings rs (cwd w)) (directories settings) []
                (log (EvReadText (config args) (Some text)) w) = (Ok per_file, w2) ∧
       snd (main args w) = emit (summary_lines totals) w2 ∧
       (∀ k, k ∈ keys totals ↔ k ∈ map name rs) ∧
       (∀ k, k ∈ map name rs → dict_get totals k = Some (sum_counts k per_file))).
Proof.
  split; [|split; [|split]].
  - intros args settings rs repo_root root totals totals' fname w w' Hv.
    apply visit_file_completes in Hv
      as [?|(Hsel & new_text & counts & w1 & w2 & Hp & _ & _ & Hk & Hg)]; [by left|].
    right. split; [done|]. exists new_text, counts, w1.
    split; [done|]. split; [done|]. intros k. rewrite Hg. unfold sum_counts. simpl.
    destruct (dict_get totals k); simpl; [f_equal; lia | done].
  - intros args settings rs repo_root root files totals totals' w w' Hloop.
    apply files_loop_collects in Hloop as (cs & Hg & Hc).
    exists cs. split; [apply (Hc [])|done].
  - intros args settings rs repo_root dirs totals totals' w w' Hloop.
    apply directories_loop_collects in Hloop as (cs & Hg & Hc).
    exists cs. split; [apply (Hc [])|done].
  - intros args w Hdone.
    apply main_completes in Hdone
      as (text & data & settings & rs & totals & w2 & Hread & Hload & Hcfg & Hloop & _ & Hw).
    apply directories_loop_collects in Hloop as (cs & [Hk Hg] & Hc).
    exists text, data, settings, rs, totals, cs, w2.
    split; [done|]. split; [done|]. split; [done|]. split; [apply (Hc [])|].
    split; [done|]. split; [intros k; by rewrite Hk, zero_counts_keys|].
    intros k Hin. rewrite Hg. unfold zero_counts. rewrite zero_fold_get.
    by destruct (decide (k ∈ map name rs)).
Qed.

(** *** File names *)

Lemma rfind_None (c : N) (s : pystr) : rfind c s = None ↔ c ∉ s.
Proof.
  induction s as [|x s IH]; simpl.
  - split; [intros _; apply not_elem_of_nil | done].
  - rewrite not_elem_of_cons. destruct (rfind c s) as [i|].
    + split; [done|]. intros [_ Hn]. by apply IH in Hn.
    + case_bool_decide as Hx.
      * split; [done | by intros [Hne _]].
      * split; [intros _; split; [congruence | by apply IH] | done].
Qed.

Lemma rfind_app (c : N) (stem e : pystr) :
  c ∉ e → rfind c (stem ++ c :: e) = Some (length stem).
Proof.
  intros He. apply rfind_None in He.
  induction stem as [|x stem IH]; simpl.
  - rewrite He. by rewrite bool_decide_eq_true_2.
  - by rewrite IH.
Qed.

Lemma rfind_split (c : N) (s : pystr) (i : nat) :
  rfind c s = Some i → ∃ stem e, s = stem ++ c :: e ∧ c ∉ e.
Proof.
  revert i. induction s as [|x s IH]; intros i; simpl; [done|].
  destruct (rfind c s) as [j|] eqn:Hr.
  - intros _. destruct (IH j eq_refl) as (stem & e & -> & He).
    by exists (x :: stem), e.
  - case_bool_decide as Hx; [|done]. subst x. intros _.
    exists [], s. split; [done|]. by apply rfind_None.
Qed.

Lemma lstrip_dots_no_dot (e : pystr) : DOT ∉ e → lstrip_dots e = e.
Proof.
  destruct e as [|c e]; simpl; [done|]. intros Hn.
  case_bool_decide as Hc; [|done]. subst c. destruct Hn. apply list_elem_of_here.
Qed.

(** The extension computed at line 108 is the one [extension_of] describes. *)
Lemma extension_of_sound (fname e : pystr) :
  extension_of fname e → extension fname = e.
Proof.
  intros [stem e' Hstem He Hdot|fname' Hdot|e' Hdot|stem]; unfold extension, suffix.
  - rewrite rfind_app by done.
    assert ((0 <? length stem) && (length stem <? length (stem ++ DOT :: e') - 1) = true)
      as ->.
    { rewrite length_app. simpl. destruct stem; [done|]. destruct e'; [done|].
      simpl. apply Nat.ltb_lt. lia. }
    rewrite drop_app_length. simpl. by apply lstrip_dots_no_dot.
  - apply rfind_None in Hdot. by rewrite Hdot.
  - change (DOT :: e') with ([] ++ DOT :: e'). by rewrite rfind_app.
  - rewrite rfind_app by apply not_elem_of_nil.
    rewrite length_app. simpl.
    replace (length stem <? length stem + 1 - 1) with false; [by rewrite andb_false_r|].
    symmetry. apply Nat.ltb_ge. lia.
Qed.

Lemma extension_of_total (fname : pystr) : extension_of fname (extension fname).
Proof.
  assert (∃ e, extension_of fname e) as [e He].
  { destruct (rfind DOT fname) as [i|] eqn:Hr.
    - apply rfind_split in Hr as (stem & e & -> & Hdot).
      destruct stem as [|x stem]; [exists []; by apply ext_leading_dot|].
      destruct e as [|y e]; [exists []; apply ext_trailing_dot|].
      exists (y :: e). by apply ext_inner.
    - exists []. apply ext_no_dot. by apply rfind_None. }
  by rewrite (extension_of_sound _ _ He).
Qed.

Lemma str_in_spec (x : pystr) (l : list toml) : str_in x l = true ↔ TStr x ∈ l.
Proof.
  unfold str_in. induction l as [|v l IH]; simpl.
  - split; [done | by intros ?%elem_of_nil].
  - rewrite orb_true_iff, IH, elem_of_cons.
    assert (str_eq_toml x v = true ↔ TStr x = v) as ->; [|done].
    destruct v; simpl; try (split; done).
    rewrite bool_decide_eq_true. split; [by intros -> | by intros [= ->]].
Qed.

(** C8, as the code behaves: a file found by the walk is processed exactly when its
    extension is one of the strings of [include_extensions], compared
    character by character; its extension is the text after the last dot
    of its name when that dot is neither the first nor the last character
    of the name, and the empty string otherwise (no dot, a name such as
    [.mojo] whose only dot leads, a name that ends in a dot).  A file that
    is not processed leaves the world and the totals untouched; a file
    that is processed is read first. *)
Theorem C8_files_selected_by_suffix (args : Args) (settings : Settings)
    (rs : list Replacement) (repo_root root : path) (totals : dict nat)
    (fname : pystr) (w : world) :
  extension_of fname (extension fname) ∧
  (∀ e, extension_of fname e → e = extension fname) ∧
  (TStr (extension fname) ∉ include_extensions settings →
     visit_file args settings rs repo_root root totals fname w = (Ok totals, w)) ∧
  (TStr (extension fname) ∈ include_extensions settings →
     ∃ tr, trace (snd (visit_file args settings rs repo_root root totals fname w)) =
           trace w ++ EvReadText (joinpath root fname)
                        (universal_newlines <$> disk w (joinpath root fname)) :: tr).
Proof.
  split; [apply extension_of_total|].
  split; [intros e He; symmetry; by apply extension_of_sound|].
  split.
  - intros Hn. unfold visit_file.
    destruct (str_in _ _) eqn:Hin; [by apply str_in_spec in Hin | done].
  - intros Hin. apply str_in_spec in Hin. unfold visit_file. rewrite Hin. cbn [negb].
    rewrite bind_run. unfold process_file. rewrite bind_run. unfold read_text.
    destruct (universal_newlines <$> disk w (joinpath root fname)) as [text|];
      [|by exists []].
    cbn [mret M_ret]. destruct (apply_rules text rs) as [new_text counts].
    match goal with |- context [snd (?k ?w1)] =>
      assert (evolves (apply args) w1 (snd (k w1))) as (_ & _ & _ & _ & tr & Ht & _)
    end.
    { apply evolves_bind; [apply evolves_report_and_write|].
      intros _ w2. apply evolves_bind; [apply evolves_refl|].
      intros totals' w3. apply evolves_log. simpl; tauto. }
    exists tr. rewrite Ht. cbn [log trace]. by rewrite <- app_assoc.
Qed.

End Run.

(** ** Runs on the concrete repository *)

(** With neither flag the run is a usage error before anything is read. *)
Lemma neither_flag_is_usage_error `{Runtime} (cfg : path) (w : world) :
  main {| config := cfg; dry_run := false; apply := false |} w =
  (Failed (UsageError usage_message), w).
Proof. reflexivity. Qed.

(** With [--apply], the flag [--dry-run] changes nothing. *)
Lemma dry_run_flag_ignored_with_apply `{Runtime} (cfg : path) (w : world) :
  main {| config := cfg; dry_run := true; apply := true |} w =
  main {| config := cfg; dry_run := false; apply := true |} w.
Proof. reflexivity. Qed.

(** C1 fails on the code: with both [--dry-run] and [--apply] the run on
    the concrete repository is no usage error.  It completes with exit
    status 0, its first action is to read the configuration file, and it
    rewrites src/a.mojo. *)
Theorem C1_both_flags_are_not_rejected :
  fst (@main demo_runtime (demo_args "/repo/demo.toml" true true) demo_world) = Completed ∧
  exit_status (fst (@main demo_runtime (demo_args "/repo/demo.toml" true true) demo_world)) = 0 ∧
  head (trace (snd (@main demo_runtime (demo_args "/repo/demo.toml" true true) demo_world))) =
    Some (@EvReadText demo_runtime (py "/repo/demo.toml") (Some (py "demo"))) ∧
  disk demo_world (py "/repo/src/a.mojo") = Some two_aliases ∧
  disk (snd (@main demo_runtime (demo_args "/repo/demo.toml" true true) demo_world))
       (py "/repo/src/a.mojo") = Some two_comptimes.
Proof. vm_compute. repeat split. Qed.

Lemma C4_dry_run_never_writes_witness :
  dry_run (demo_args "/repo/demo.toml" true false) = true ∧
  apply (demo_args "/repo/demo.toml" true false) = false ∧
  disk (snd (@main demo_runtime (demo_args "/repo/demo.toml" true false) demo_world))
       (py "/repo/src/a.mojo") = Some two_aliases.
Proof.
  split; [reflexivity|]. split; [reflexivity|].
  destruct (proj1 (@C4_dry_run_never_writes demo_runtime)
              (demo_args "/repo/demo.toml" true false) demo_world eq_refl eq_refl)
    as [Hdisk _].
  exact (Hdisk (py "/repo/src/a.mojo")).
Defined.

Lemma C5_totals_are_sums_of_file_counts_witness :
  fst (@main demo_runtime (demo_args "/repo/demo.toml" false true) demo_world) = Completed ∧
  ∃ rs totals per_file w2,
    snd (@main demo_runtime (demo_args "/repo/demo.toml" false true) demo_world) =
      emit (summary_lines totals) w2 ∧
    ∀ k, k ∈ map name rs → dict_get totals k = Some (sum_counts k per_file).
Proof.
  split; [vm_compute; reflexivity|].
  destruct (proj2 (proj2 (proj2 (@C5_totals_are_sums_of_file_counts demo_runtime)))
              (demo_args "/repo/demo.toml" false true) demo_world)
    as (text & data & settings & rs & totals & cs & w2 & _ & _ & _ & _ & Hw & _ & Hsum);
    [vm_compute; reflexivity|].
  exists rs, totals, cs, w2. split; [exact Hw | exact Hsum].
Defined.

Lemma C6_empty_directories_fail_fast_witness :
  exit_status
    (fst (@main demo_runtime (demo_args "/repo/nodirs.toml" true false) demo_world)) = 1 ∧
  trace (snd (@main demo_runtime (demo_args "/repo/nodirs.toml" true false) demo_world)) =
    [@EvReadText demo_runtime (py "/repo/nodirs.toml") (Some (py "no-directories"))].
Proof.
  destruct (@C6_empty_directories_fail_fast demo_runtime
              (demo_args "/repo/nodirs.toml" true false) demo_world
              (py "no-directories") no_directories_document (mojo_only []) [alias_rule])
    as (_ & Hexit & Htrace & _).
  - reflexivity.
  - vm_compute. reflexivity.
  - vm_compute. reflexivity.
  - vm_compute. reflexivity.
  - right. intros tbl Hsettings. vm_compute in Hsettings.
    injection Hsettings as <-. vm_compute. reflexivity.
  - split; [exact Hexit | exact Htrace].
Defined.



(** The run of the counterexample, and a run in which the missing
    directory is skipped and the summary cannot be printed. *)
Example missing_directory_runs :
  @main demo_runtime (demo_args "/repo/missing.toml" true false) long_name_world =
    (Failed (Uncaught OSError),
     log (@EvIsDir demo_runtime (py "/repo/missing_dir"))
       (log (@EvReadText demo_runtime (py "/repo/missing.toml") (Some (py "missing-dir")))
          long_name_world)) ∧
  fst (@main demo_runtime (demo_args "/repo/missing.toml" true false) narrow_stream_world) =
    Failed (Uncaught UnicodeEncodeError) ∧
  stdout (snd (@main demo_runtime (demo_args "/repo/missing.toml" true false)
                 narrow_stream_world)) = [@OutSummary demo_runtime].
Proof. vm_compute. repeat split. Qed.

(** C8, as the specification states it, fails: the text after the last
    dot of the name [.mojo] is [mojo], which is an included extension,
    and yet the file is not processed. *)
Lemma C8_leading_dot_counterexample :
  ¬ (∀ (settings : Settings) (fname : pystr) (w : @world demo_runtime),
       (∃ e, after_last_dot fname = Some e ∧ TStr e ∈ include_extensions settings) ↔
       trace (snd (@visit_file demo_runtime (demo_args "/repo/demo.toml" true false)
                     settings [alias_rule] (py "/repo") (py "/repo/src") [(py "x", 0)]
                     fname w)) ≠ trace w).
Proof.
  intros Hclaim.
  destruct (Hclaim (mojo_only [TStr (py "src")]) (py ".mojo") demo_world) as [Hread _].
  apply Hread; [|vm_compute; reflexivity].
  exists (py "mojo"). split; [vm_compute; reflexivity | apply list_elem_of_here].
Qed.

Lemma C8_files_selected_by_suffix_witness :
  @visit_file demo_runtime (demo_args "/repo/demo.toml" true false)
    (mojo_only [TStr (py "src")]) [alias_rule] (py "/repo") (py "/repo/src")
    [(py "x", 0)] (py ".mojo") demo_world = (Ok [(py "x", 0)], demo_world).
Proof.
  destruct (@C8_files_selected_by_suffix demo_runtime (demo_args "/repo/demo.toml" true false)
              (mojo_only [TStr (py "src")]) [alias_rule] (py "/repo") (py "/repo/src")
              [(py "x", 0)] (py ".mojo") demo_world) as (_ & _ & Hskip & _).
  apply Hskip. vm_compute. intros Hin.
  apply list_elem_of_singleton in Hin. discriminate Hin.
Defined.

Example demo_dry_run_output :
  stdout (snd (@main demo_runtime (demo_args "/repo/demo.toml" true false) demo_world)) =
  [@OutFile demo_runtime (py "src/a.mojo"); @OutCount demo_runtime (py "x") 2;
   @OutSummary demo_runtime; @OutTotal demo_runtime (py "x") 2].
Proof. vm_compute. reflexivity. Qed.

Example extensions :
  extension (py "a.mojo") = py "mojo" ∧ extension (py "archive.tar.gz") = py "gz" ∧
  extension (py ".mojo") = [] ∧ extension (py "Makefile") = [] ∧
  extension (py "notes.") = [] ∧ extension (py "A.MOJO") = py "MOJO".
Proof. vm_compute. repeat split. Qed.

(** * Further properties of the code *)

(** ** Counting and replacing *)

Lemma startswith_length (s sub : pystr) :
  startswith s sub = true → length sub ≤ length s.
Proof. intros Hp%startswith_prefix. by apply prefix_length. Qed.

Lemma startswith_split (s sub : pystr) :
  startswith s sub = true → s = sub ++ drop (length sub) s.
Proof.
  intros [k ->]%startswith_prefix. by rewrite drop_app_length.
Qed.

Lemma replace_scan_length (old new : pystr) (skip : nat) (s : pystr) :
  skip ≤ length s → skip ≤ length old - 1 →
  length (replace_scan old new skip s) + skip + count_scan old skip s * length old =
  length s + count_scan old skip s * length new.
Proof.
  revert skip. induction s as [|c s IH]; intros skip Hs Hold; scan_step.
  - simpl in Hs. destruct old; simpl in *; lia.
  - destruct skip as [|k].
    + destruct (startswith (c :: s) old) eqn:Hm.
      * apply startswith_length in Hm. simpl in Hm.
        specialize (IH (length old - 1) ltac:(lia) ltac:(lia)).
        rewrite !length_app. destruct old as [|a old']; simpl in *; lia.
      * specialize (IH 0 ltac:(lia) ltac:(lia)). simpl. lia.
    + specialize (IH k ltac:(simpl in Hs; lia) ltac:(lia)). simpl. lia.
Qed.

(** X1: replacing changes the length of a text by the number of counted
    occurrences times the difference in length between the replacement
    and the search string; so the counted occurrences fit in the text. *)
Theorem X1_replace_length (s old new : pystr) :
  length (str_replace s old new) + str_count s old * length old =
    length s + str_count s old * length new ∧
  str_count s old * length old ≤ length s ∧
  str_count s old ≤ S (length s).
Proof.
  unfold str_replace, str_count.
  pose proof (replace_scan_length old new 0 s ltac:(lia) ltac:(lia)) as Hnew.
  pose proof (replace_scan_length old [] 0 s ltac:(lia) ltac:(lia)) as Hnil.
  simpl in Hnil. split; [lia|]. split; [lia|].
  destruct old as [|a old'].
  - rewrite count_scan_empty. lia.
  - simpl in Hnil. nia.
Qed.

Lemma replace_scan_same (old : pystr) (skip : nat) (s : pystr) :
  skip ≤ length old - 1 → replace_scan old old skip s = drop skip s.
Proof.
  revert skip. induction s as [|c s IH]; intros skip Hold; scan_step.
  - rewrite drop_nil. destruct old; [done|done].
  - destruct skip as [|k]; [|by apply IH; lia].
    rewrite drop_0. destruct (startswith (c :: s) old) eqn:Hm.
    + rewrite IH by lia. destruct old as [|a old']; [done|].
      apply startswith_split in Hm. simpl in *. rewrite Nat.sub_0_r.
      by injection Hm as -> <-.
    + by rewrite IH, drop_0 by lia.
Qed.

(** X2: a rule whose replacement equals its search string leaves the
    text as it is, whatever the text, while its occurrences are still
    counted and recorded. *)
Theorem X2_replace_by_itself (current : pystr) (counts : dict nat) (r : Replacement) :
  replace r = search r →
  apply_rule (current, counts) r =
  (current, dict_set counts (name r) (str_count current (search r))).
Proof.
  intros Heq. unfold apply_rule. rewrite Heq. f_equal.
  destruct (truth _); [|done]. unfold str_replace.
  by rewrite replace_scan_same, drop_0 by lia.
Qed.

Lemma X2_replace_by_itself_witness :
  apply_rule (py "aXbXc", []) {| name := py "x"; search := py "X"; replace := py "X" |} =
  (py "aXbXc", [(py "x", 2)]).
Proof.
  exact (X2_replace_by_itself (py "aXbXc") []
           {| name := py "x"; search := py "X"; replace := py "X" |} eq_refl).
Defined.

(** X3: the test [if before:] of line 76 succeeds exactly when the search
    string is a substring of the current text. *)
Theorem X3_count_positive_iff_substring (s sub : pystr) :
  truth (str_count s sub) = true ↔ occurs_in s sub.
Proof.
  unfold truth. rewrite negb_true_iff, Nat.eqb_neq. split.
  - intros Hpos. unfold str_count in Hpos.
    rewrite (count_scan_occ sub 0 0 s) in Hpos. fold (occurrences s sub) in Hpos.
    destruct (occurrences s sub) as [|p ps] eqn:Hocc; [done|].
    apply occurs_in_at. exists p.
    apply (ltr_occurs _ _ _ (occurrences_left_to_right s sub)).
    rewrite Hocc. apply list_elem_of_here.
  - intros Hin Hz. by apply str_count_zero in Hz.
Qed.

Lemma dict_set_fresh {V} (d : dict V) (k : pystr) (v : V) :
  k ∉ keys d → dict_set d k v = d ++ [(k, v)].
Proof.
  induction d as [|[k0 v0] d IH]; simpl; [done|].
  intros [Hne Hn]%not_elem_of_cons.
  destruct (decide (k0 = k)); [congruence|]. by rewrite IH.
Qed.

(** X4: when the rules have distinct names and every count recorded for
    a file is zero, the rule applier has returned the text it was given:
    a file that is not reported has nothing to write. *)
Theorem X4_unreported_file_is_unchanged (text : pystr) (rs : list Replacement) :
  NoDup (map name rs) →
  any_count (snd (apply_rules text rs)) = false →
  fst (apply_rules text rs) = text.
Proof.
  induction rs as [|r rs IH] using rev_ind; [done|].
  rewrite map_app. simpl. intros [Hnd [Hfresh _]]%list.NoDup_app.
  rewrite apply_rules_snoc.
  assert (name r ∉ keys (snd (apply_rules text rs))) as Hkey.
  { rewrite apply_rules_keys. intros Hin. apply (Hfresh _ Hin), list_elem_of_here. }
  destruct (apply_rules text rs) as [current counts]. cbn [apply_rule fst snd] in *.
  rewrite dict_set_fresh by done.
  unfold any_count, values. rewrite map_app, existsb_app. simpl.
  rewrite orb_false_r. intros [Hany Hz]%orb_false_iff.
  rewrite Hz. by apply IH.
Qed.

Lemma X4_unreported_file_is_unchanged_witness :
  fst (apply_rules two_comptimes [alias_rule]) = two_comptimes.
Proof.
  apply (X4_unreported_file_is_unchanged two_comptimes [alias_rule]).
  - apply NoDup_singleton.
  - vm_compute. reflexivity.
Defined.

(** With rules of the same name the counts of the earlier rule are
    overwritten, so a changed text can come with counts that are all
    zero: the distinct names are needed above. *)
Example same_name_hides_a_change :
  apply_rules (py "a")
    [ {| name := py "x"; search := py "a"; replace := py "b" |};
      {| name := py "x"; search := py "z"; replace := py "y" |} ] =
  (py "b", [(py "x", 0)]).
Proof. reflexivity. Qed.

(** ** Loading the configuration *)

Section Loading.
Context `{Runtime}.

Lemma get_method_Abort (v : toml) (f : failure) :
  get_method v = Abort f → f = Uncaught AttributeError.
Proof. destruct v; simpl; congruence. Qed.

Lemma py_iter_Abort (v : toml) (f : failure) :
  py_iter v = Abort f → f = Uncaught TypeError.
Proof. destruct v; simpl; congruence. Qed.

Lemma load_replacement_Ok (item : toml) (r : Replacement) :
  load_replacement item = Ok r → ∃ tbl, item = TTable tbl.
Proof. destruct item; simpl; try done. eauto. Qed.

Lemma load_replacement_Abort (item : toml) (f : failure) :
  load_replacement item = Abort f →
  f = Uncaught AttributeError ∧ ∀ tbl, item ≠ TTable tbl.
Proof. destruct item; simpl; intros [= <-]; done. Qed.

Lemma load_replacements_cons (item : toml) (items : list toml) :
  load_replacements (item :: items) =
  match load_replacement item with
  | Ok r => match load_replacements items with
            | Ok rs => Ok (r :: rs)
            | Abort f => Abort f
            end
  | Abort f => Abort f
  end.
Proof. reflexivity. Qed.

(** X5: the replacement entries are loaded one by one, in order: the
    load succeeds exactly when every entry is a table, and then gives one
    rule per entry in the order of the document; it fails, with an
    [AttributeError], exactly when some entry is not a table. *)
Theorem X5_replacements_loaded_in_order (items : list toml) :
  (∀ rs, load_replacements items = Ok rs ↔
         Forall2 (λ item r, load_replacement item = Ok r) items rs) ∧
  (∀ rs, load_replacements items = Ok rs → length rs = length items) ∧
  (∀ f, load_replacements items = Abort f →
        f = Uncaught AttributeError ∧ ∃ item, item ∈ items ∧ ∀ tbl, item ≠ TTable tbl).
Proof.
  assert (∀ rs, load_replacements items = Ok rs ↔
            Forall2 (λ item r, load_replacement item = Ok r) items rs) as Hiff.
  { induction items as [|item items IH]; intros rs.
    - simpl. split; [intros [= <-]; constructor | by intros ->%Forall2_nil_inv_l].
    - rewrite load_replacements_cons. split.
      + destruct (load_replacement item) as [r|] eqn:Hr; [|done].
        destruct (load_replacements items) as [rs'|] eqn:Hrs; [|done].
        intros [= <-]. constructor; [done|]. by apply IH.
      + intros (r & rs' & Hr & Hrs & ->)%Forall2_cons_inv_l.
        rewrite Hr. apply IH in Hrs. by rewrite Hrs. }
  split; [exact Hiff|]. split.
  - intros rs Hrs%Hiff. symmetry. by eapply Forall2_length.
  - clear Hiff. induction items as [|item items IH]; intros f; [done|].
    rewrite load_replacements_cons.
    destruct (load_replacement item) as [r|f'] eqn:Hr.
    + destruct (load_replacements items) as [rs'|f'] eqn:Hrs; [done|].
      intros [= <-]. destruct (IH f' eq_refl) as (-> & item' & Hin & Hnt).
      split; [done|]. exists item'. split; [by apply list_elem_of_further | done].
    + intros [= <-]. apply load_replacement_Abort in Hr as [-> Hnt].
      split; [done|]. exists item. split; [apply list_elem_of_here | done].
Qed.

Lemma load_replacements_Abort (items : list toml) (f : failure) :
  load_replacements items = Abort f → f = Uncaught AttributeError.
Proof.
  induction items as [|item items IH]; [done|]. rewrite load_replacements_cons.
  destruct (load_replacement item) as [r|f'] eqn:Hr.
  - destruct (load_replacements items); [done|]. intros [= <-]. by apply IH.
  - intros [= <-]. by apply load_replacement_Abort in Hr as [-> _].
Qed.

Lemma load_replacements_entries (items : list toml) (rs : list Replacement) :
  Forall2 entry_for rs items → load_replacements items = Ok rs.
Proof.
  intros Hall. induction Hall as [|r item rs items (tbl & -> & Hn & Hs & Hr) _ IH];
    [done|].
  rewrite load_replacements_cons, IH. unfold load_replacement, get_or. simpl.
  rewrite Hn, Hs, Hr. simpl. by destruct r.
Qed.

Lemma config_of_Abort (data : dict toml) (f : failure) :
  config_of data = Abort f →
  f = Uncaught AttributeError ∨ f = Uncaught TypeError.
Proof.
  unfold config_of.
  destruct (get_method _) as [tbl|f1] eqn:Hgm;
    [|intros [= <-]; left; by eapply get_method_Abort].
  destruct (py_iter (get_or tbl (py "include_extensions") _)) as [exts|f1] eqn:He;
    [|intros [= <-]; right; by eapply py_iter_Abort].
  destruct (py_iter (get_or tbl (py "directories") _)) as [dirs|f1] eqn:Hd;
    [|intros [= <-]; right; by eapply py_iter_Abort].
  destruct (py_iter (get_or data (py "replacements") _)) as [items|f1] eqn:Hi;
    [|intros [= <-]; right; by eapply py_iter_Abort].
  destruct (load_replacements items) as [rs|f1] eqn:Hrs; [done|].
  intros [= <-]. left. by eapply load_replacements_Abort.
Qed.

(** X6: a document of the documented shape loads to what it says: a
    non-empty [settings] table whose [include_extensions] and
    [directories] are arrays (or are left to their defaults), and a
    [replacements] array whose entries spell out rules with string values,
    give exactly those settings and those rules, in order. *)
Theorem X6_documented_shape_loads (data tbl : dict toml) (exts dirs items : list toml)
    (rs : list Replacement) :
  dict_get data (py "settings") = Some (TTable tbl) →
  tbl ≠ [] →
  get_or tbl (py "include_extensions") (TArray [TStr (py "mojo")]) = TArray exts →
  get_or tbl (py "directories") (TArray []) = TArray dirs →
  get_or data (py "replacements") (TArray []) = TArray items →
  Forall2 entry_for rs items →
  config_of data = Ok ({| include_extensions := exts; directories := dirs |}, rs).
Proof.
  intros Hs Hne He Hd Hi Hall. unfold config_of. rewrite Hs.
  assert (truthy_toml (TTable tbl) = true) as -> by (by destruct tbl).
  cbn [get_method]. rewrite He, Hd, Hi. cbn [py_iter].
  by rewrite (load_replacements_entries _ _ Hall).
Qed.

(** X7: the defaults.  A [settings] value that is absent or falsy (an
    empty table, an empty string, zero, false, an empty array) counts as
    an empty table, whatever its type: with no [replacements] either, the
    configuration is the extension [mojo], no directory and no rule.  A
    replacement entry without a [name] is named [unnamed], and without
    [search] or [replace] has the empty string there. *)
Theorem X7_defaults :
  (∀ data : dict toml,
     (∀ v, dict_get data (py "settings") = Some v → truthy_toml v = false) →
     dict_get data (py "replacements") = None →
     config_of data =
       Ok ({| include_extensions := [TStr (py "mojo")]; directories := [] |}, [])) ∧
  (∀ (tbl : dict toml) (r : Replacement),
     load_replacement (TTable tbl) = Ok r →
     (dict_get tbl (py "name") = None → name r = py "unnamed") ∧
     (dict_get tbl (py "search") = None → search r = []) ∧
     (dict_get tbl (py "replace") = None → replace r = [])).
Proof.
  split.
  - intros data Hfalsy Hnone. unfold config_of, get_or. rewrite Hnone.
    destruct (dict_get data (py "settings")) as [v|]; [|done].
    by rewrite (Hfalsy v eq_refl).
  - intros tbl r [= <-]. unfold get_or. cbn [name search replace].
    repeat split; by intros ->.
Qed.

End Loading.

(** ** The run, further *)

Section Further.
Context `{Runtime}.

(** The shape of [main], flags accepted. *)
Lemma main_unfold (args : Args) (w : world) :
  dry_run args || apply args = true →
  main args w =
  match load_config (config args) w with
  | (Abort f, w1) => (Failed f, w1)
  | (Ok (settings, rs), w1) =>
      match directories settings with
      | [] => (Failed (SystemExit no_directories_message), w1)
      | _ :: _ =>
          match for_each (visit_directory args settings rs (cwd w1))
                  (directories settings) (zero_counts rs) w1 with
          | (Ok totals, w2) =>
              match print (summary_lines totals) w2 with
              | (Ok _, w3) => (Completed, w3)
              | (Abort f, w3) => (Failed f, w3)
              end
          | (Abort f, w2) => (Failed f, w2)
          end
      end
  end.
Proof.
  intros Hflags. unfold main, main_body.
  replace (negb (dry_run args) && negb (apply args)) with false
    by (destruct (dry_run args), (apply args); done).
  rewrite bind_run. destruct (load_config (config args) w) as [[[settings rs]|f] w1];
    [|done].
  destruct (directories settings) as [|d dirs]; [done|].
  rewrite bind_run. destruct (for_each _ _ _ _) as [[totals|f] w2]; [|done].
  by destruct (print _ w2) as [[u|f] w3].
Qed.

Lemma load_config_cases (p : path) (w : world) :
  let got := universal_newlines <$> disk w p in
  snd (load_config p w) = log (EvReadText p got) w ∧
  ((got = None ∧
    fst (load_config p w) = Abort (Uncaught (read_exception (read_error w p)))) ∨
   (∃ text, got = Some text ∧ tomllib_loads text = None ∧
            fst (load_config p w) = Abort (Uncaught (loads_exception (loads_error text)))) ∨
   (∃ text data, got = Some text ∧ tomllib_loads text = Some data ∧
                 fst (load_config p w) = config_of data)).
Proof.
  unfold load_config. rewrite bind_run. unfold read_text.
  destruct (universal_newlines <$> disk w p) as [text|]; [|by split; [|left]].
  destruct (tomllib_loads text) as [data|] eqn:Hload.
  - split; [done|]. right; right. by exists text, data.
  - split; [done|]. right; left. by exists text.
Qed.


(** *** Failures *)

Lemma for_each_fails {A} (I : dict nat → Prop) (P : failure → Prop)
    (body : dict nat → A → M (dict nat)) (l : list A) :
  (∀ s x w s' w', I s → body s x w = (Ok s', w') → I s') →
  (∀ s x w f w', I s → body s x w = (Abort f, w') → P f) →
  ∀ s w f w', I s → for_each body l s w = (Abort f, w') → P f.
Proof.
  intros Hok Hfail. induction l as [|x l IH]; intros s w f w' Hs; cbn [for_each];
    [done|].
  rewrite bind_run. destruct (body s x w) as [[s1|f1] w1] eqn:Hb.
  - apply IH. by eapply Hok.
  - intros [= <- <-]. by eapply Hfail.
Qed.

Lemma for_each_keeps {A} (I : dict nat → Prop)
    (body : dict nat → A → M (dict nat)) (l : list A) :
  (∀ s x w s' w', I s → body s x w = (Ok s', w') → I s') →
  ∀ s w s' w', I s → for_each body l s w = (Ok s', w') → I s'.
Proof.
  intros Hok. induction l as [|x l IH]; intros s w s' w' Hs; cbn [for_each].
  - by intros [= <- <-].
  - rewrite bind_run. destruct (body s x w) as [[s1|f1] w1] eqn:Hb; [|done].
    apply IH. by eapply Hok.
Qed.

Lemma report_and_write_Abort (args : Args) (repo_root fpath : path)
    (new_text : pystr) (counts : dict nat) (w w' : world) (f : failure) :
  report_and_write args repo_root fpath new_text counts w = (Abort f, w') →
  ∃ exc, f = Uncaught exc ∧ exc ≠ KeyError.
Proof.
  unfold report_and_write. destruct (any_count counts); [|done].
  destruct (relative_to fpath repo_root) as [rel|];
    [|intros [= <- _]; by exists ValueError].
  rewrite bind_run.
  destruct (print_cases (OutFile rel :: count_lines counts) w)
    as [->|(printed & r & -> & _)];
    [|intros [= <- _]; eexists; split; [done | by destruct r]].
  destruct (apply args); [|done].
  rewrite bind_run. unfold read_text.
  destruct (universal_newlines <$> disk _ fpath);
    [|intros [= <- _]; eexists; split; [done | by destruct (read_error _ _)]].
  case_bool_decide; [|done]. unfold write_text.
  destruct (writable _ fpath); [done|]. intros [= <- _]. by exists OSError.
Qed.

Lemma covers_zero_counts (rs : list Replacement) : covers rs (zero_counts rs).
Proof. intros k Hk. by apply zero_counts_keys. Qed.

Lemma add_counts_covered (rs : list Replacement) (totals : dict nat) (text : pystr) :
  covers rs totals →
  ∃ totals', add_counts totals (snd (apply_rules text rs)) = Ok totals' ∧
             keys totals' = keys totals.
Proof.
  intros Hcov.
  destruct (add_counts_spec (snd (apply_rules text rs)) totals) as (t' & Hadd & Hk & _).
  - apply fold_rules_NoDup. simpl. apply NoDup_nil_2.
  - intros k Hk. apply Hcov. by apply apply_rules_keys in Hk.
  - by exists t'.
Qed.

Lemma visit_file_keeps_cover (args : Args) (settings : Settings) (rs : list Replacement)
    (repo_root root : path) (totals totals' : dict nat) (fname : pystr) (w w' : world) :
  covers rs totals →
  visit_file args settings rs repo_root root totals fname w = (Ok totals', w') →
  covers rs totals'.
Proof.
  intros Hcov Hv. apply visit_file_keys in Hv as Hk. intros k Hin.
  rewrite Hk. by apply Hcov.
Qed.

Lemma visit_file_fails (args : Args) (settings : Settings) (rs : list Replacement)
    (repo_root root : path) (totals : dict nat) (fname : pystr) (w w' : world)
    (f : failure) :
  covers rs totals →
  visit_file args settings rs repo_root root totals fname w = (Abort f, w') →
  run_failure f.
Proof.
  intros Hcov. unfold visit_file. destruct (negb _); [done|].
  rewrite bind_run. unfold process_file. rewrite bind_run. unfold read_text.
  destruct (universal_newlines <$> disk w (joinpath root fname)) as [text|];
    [|intros [= <- _]; right; eexists; split; [done | by destruct (read_error _ _)]].
  cbn [mret M_ret].
  destruct (add_counts_covered rs totals text Hcov) as (t' & Hadd & _).
  destruct (apply_rules text rs) as [new_text counts]. cbn [snd] in Hadd.
  rewrite bind_run.
  destruct (report_and_write _ _ _ _ _ _) as [[[]|f1] w2] eqn:Hrw.
  - rewrite bind_run. unfold lift. by rewrite Hadd.
  - intros [= <- _]. right. by apply report_and_write_Abort in Hrw.
Qed.

Lemma visit_directory_keeps_cover (args : Args) (settings : Settings)
    (rs : list Replacement) (repo_root : path) (totals totals' : dict nat)
    (rel_dir : toml) (w w' : world) :
  covers rs totals →
  visit_directory args settings rs repo_root totals rel_dir w = (Ok totals', w') →
  covers rs totals'.
Proof.
  intros Hcov Hv. apply visit_directory_keys in Hv as Hk. intros k Hin.
  rewrite Hk. by apply Hcov.
Qed.

Lemma visit_directory_fails (args : Args) (settings : Settings) (rs : list Replacement)
    (repo_root : path) (totals : dict nat) (rel_dir : toml) (w w' : world)
    (f : failure) :
  covers rs totals →
  visit_directory args settings rs repo_root totals rel_dir w = (Abort f, w') →
  run_failure f.
Proof.
  intros Hcov. unfold visit_directory.
  destruct rel_dir as [d| | |];
    try (intros [= <- _]; right; by exists TypeError).
  rewrite bind_run. unfold is_dir.
  destruct (is_dir_answer _) as [found|]; [|intros [= <- _]; right; by exists OSError].
  destruct (negb found); [done|]. rewrite bind_run. cbn [walk].
  apply (for_each_fails (covers rs)); [| |done].
  - intros s entry w1 s' w1' Hs.
    apply (for_each_keeps (covers rs)); [|done].
    intros ? ? ? ? ? ?. by apply visit_file_keeps_cover.
  - intros s entry w1 f1 w1' Hs.
    apply (for_each_fails (covers rs)); [| |done].
    + intros ? ? ? ? ? ?. by apply visit_file_keeps_cover.
    + intros ? ? ? ? ? ?. by apply visit_file_fails.
Qed.

(** How a run can fail. *)
Lemma main_failure_cases (args : Args) (w : world) (f : failure) :
  fst (main args w) = Failed f →
  (dry_run args = false ∧ apply args = false ∧ f = UsageError usage_message ∧
   snd (main args w) = w) ∨
  (dry_run args || apply args = true ∧ run_failure f).
Proof.
  destruct (dry_run args || apply args) eqn:Hflags.
  - intros Hf. right. split; [done|]. rewrite (main_unfold _ _ Hflags) in Hf.
    destruct (load_config (config args) w) as [[[settings rs]|f1] w1] eqn:Hload.
    + destruct (directories settings) as [|d dirs] eqn:Hdirs.
      { injection Hf as <-. by left. }
      destruct (for_each _ _ _ _) as [[totals|f1] w2] eqn:Hloop.
      { destruct (print_cases (summary_lines totals) w2)
          as [Hp|(printed & r & Hp & _)]; rewrite Hp in Hf; [done|].
        injection Hf as <-. right. eexists. split; [done | by destruct r]. }
      injection Hf as <-. revert Hloop.
      apply (for_each_fails (covers rs)); [| |apply covers_zero_counts].
      * intros ? ? ? ? ? ?. by apply visit_directory_keeps_cover.
      * intros ? ? ? ? ? ?. by apply visit_directory_fails.
    + injection Hf as <-.
      destruct (load_config_cases (config args) w) as [_ Hcases].
      rewrite Hload in Hcases. cbn [fst] in Hcases. right.
      destruct Hcases as [[_ [= ->]]|[(? & _ & _ & [= ->])|(? & data & _ & _ & Hc)]].
      * eexists. split; [done | by destruct (read_error _ _)].
      * eexists. split; [done | by destruct (loads_error _)].
      * symmetry in Hc. apply config_of_Abort in Hc as [->| ->]; by eexists.
  - apply orb_false_iff in Hflags as [Hd Ha]. intros Hf. left.
    unfold main, main_body in *. rewrite Hd, Ha in *. simpl in *.
    injection Hf as <-. done.
Qed.


(** X10: a run never ends in a [KeyError]: the totals have an entry for
    every name under which a file's counts are recorded, so the addition
    at line 122 always finds its key.  The failures a run can end with
    are the usage error, the exit for an empty list of directories, and
    the exceptions of reading, parsing, path handling and printing. *)
Theorem X10_no_key_error (args : Args) (w : world) :
  fst (main args w) ≠ Failed (Uncaught KeyError) ∧
  (∀ f, fst (main args w) = Failed f →
        f = UsageError usage_message ∨
        f = SystemExit no_directories_message ∨
        ∃ exc, f = Uncaught exc ∧ exc ≠ KeyError) ∧
  (∀ (rs : list Replacement) (totals : dict nat) (text : pystr),
     covers rs totals →
     ∃ totals', add_counts totals (snd (apply_rules text rs)) = Ok totals' ∧
                keys totals' = keys totals).
Proof.
  assert (∀ f, fst (main args w) = Failed f →
        f = UsageError usage_message ∨
        f = SystemExit no_directories_message ∨
        ∃ exc, f = Uncaught exc ∧ exc ≠ KeyError) as Hcases.
  { intros f Hf.
    destruct (main_failure_cases _ _ _ Hf) as [(_ & _ & -> & _)|[_ [->|Hexc]]]; auto. }
  split; [|split; [done | apply add_counts_covered]].
  intros Hf. destruct (Hcases _ Hf) as [?|[?|(exc & [= <-] & Hne)]]; done.
Qed.

(** *** What is printed *)








(** Lines 113-120, when they complete, have printed the whole report. *)
Lemma report_and_write_returns (args : Args) (repo_root fpath : path)
    (new_text : pystr) (counts : dict nat) (u : unit) (w w' : world) :
  report_and_write args repo_root fpath new_text counts w = (Ok u, w') →
  if any_count counts then
    ∃ rel, relative_to fpath repo_root = Some rel ∧
           prints w (OutFile rel :: count_lines counts) ∧
           stdout w' = stdout w ++ OutFile rel :: count_lines counts
  else w' = w.
Proof.
  unfold report_and_write. destruct (any_count counts); [|by intros [= _ <-]].
  destruct (relative_to fpath repo_root) as [rel|]; [|done].
  rewrite bind_run.
  destruct (print (OutFile rel :: count_lines counts) w) as [[[]|f] w1] eqn:Hp; [|done].
  apply print_returns in Hp as [Hacc ->]. intros Hrest.
  exists rel. split; [done|]. split; [done|].
  revert Hrest. destruct (apply args); [|by intros [= _ <-]].
  rewrite bind_run. unfold read_text.
  destruct (universal_newlines <$> disk _ fpath) as [current|]; [|done].
  case_bool_decide; [|by intros [= _ <-]]. unfold write_text.
  destruct (writable _ fpath); [|done]. by intros [= _ <-].
Qed.





Lemma zero_counts_first_seen (rs : list Replacement) :
  keys (zero_counts rs) = first_seen (map name rs).
Proof.
  unfold zero_counts, first_seen.
  assert (∀ d : dict nat,
    keys (fold_left (λ d r, dict_set d (name r) 0) rs d) =
    fold_left (λ acc k, if decide (k ∈ acc) then acc else acc ++ [k]) (map name rs) (keys d))
    as Hgen.
  { induction rs as [|r rs IH]; intros d; simpl; [done|]. by rewrite IH, keys_set. }
  apply (Hgen []).
Qed.

(** X12: on completion the summary has one line for every distinct rule
    name, in the order in which the names first appear in the
    configuration, whether or not any file was processed. *)
Theorem X12_summary_lists_names_in_order (args : Args) (w : world) :
  fst (main args w) = Completed →
  ∃ text data settings rs totals w2,
    universal_newlines <$> disk w (config args) = Some text ∧
    tomllib_loads text = Some data ∧
    config_of data = Ok (settings, rs) ∧
    stdout (snd (main args w)) =
      stdout w2 ++ OutSummary :: map (λ kv, OutTotal (fst kv) (snd kv)) totals ∧
    keys totals = first_seen (map name rs) ∧
    NoDup (keys totals).
Proof.
  intros Hdone.
  assert (dry_run args || apply args = true) as Hflags.
  { destruct (dry_run args || apply args) eqn:Hf; [done|].
    apply orb_false_iff in Hf as [Hd Ha]. unfold main, main_body in Hdone.
    by rewrite Hd, Ha in Hdone. }
  rewrite (main_unfold _ _ Hflags) in *.
  destruct (load_config_cases (config args) w) as [_ Hcases].
  destruct (load_config (config args) w) as [[[settings rs]|f1] w1]; [|done].
  destruct Hcases as [[_ ?]|[(? & _ & _ & ?)|(text & data & Hgot & Hload & Hcfg)]];
    [done..|]. cbn [fst] in Hcfg.
  destruct (directories settings) as [|d dirs]; [done|].
  destruct (for_each _ _ _ _) as [[totals|f1] w2] eqn:Hloop; [|done].
  destruct (print (summary_lines totals) w2) as [[u|f1] w3] eqn:Hp; [|done].
  apply print_returns in Hp as [_ ->].
  apply directories_loop_keys in Hloop as Hkeys.
  exists text, data, settings, rs, totals, w2.
  split; [done|]. split; [done|]. split; [done|]. split; [done|].
  rewrite Hkeys, zero_counts_first_seen. split; [done|].
  rewrite <- zero_counts_first_seen. unfold zero_counts.
  assert (∀ d : dict nat, NoDup (keys d) →
    NoDup (keys (fold_left (λ d r, dict_set d (name r) 0) rs d))) as Hnd.
  { clear. induction rs as [|r rs IH]; intros d Hd; simpl; [done|].
    by apply IH, keys_set_NoDup. }
  apply Hnd, NoDup_nil_2.
Qed.

(** *** One file *)

Lemma dict_set_same {V} (d : dict V) (k : pystr) (v : V) :
  dict_get d k = Some v → dict_set d k v = d.
Proof.
  induction d as [|[k0 v0] d IH]; simpl; [done|].
  destruct (decide (k0 = k)) as [->|Hne]; [by intros [= ->]|].
  intros Hget. by rewrite IH.
Qed.

Lemma add_counts_zero (totals counts : dict nat) :
  (∀ kv, kv ∈ counts → snd kv = 0) →
  (∀ k, k ∈ keys counts → k ∈ keys totals) →
  add_counts totals counts = Ok totals.
Proof.
  induction counts as [|[k0 c0] cs IH]; intros Hz Hsub; [done|].
  cbn [add_counts]. unfold add_count. cbn [fst snd].
  assert (c0 = 0) as -> by apply (Hz (k0, c0)), list_elem_of_here.
  destruct (dict_get totals k0) as [t|] eqn:Ht.
  - rewrite Nat.add_0_r, (dict_set_same _ _ _ Ht). apply IH.
    + intros kv Hkv. by apply Hz, list_elem_of_further.
    + intros k Hk. by apply Hsub, list_elem_of_further.
  - apply dict_get_None in Ht. destruct Ht. apply Hsub, list_elem_of_here.
Qed.

Lemma any_count_zero (counts : dict nat) :
  (∀ kv, kv ∈ counts → snd kv = 0) → any_count counts = false.
Proof.
  unfold any_count, values. induction counts as [|kv cs IH]; intros Hz; [done|].
  simpl. rewrite (Hz kv (list_elem_of_here _ _)). simpl. apply IH.
  intros kv' Hkv'. by apply Hz, list_elem_of_further.
Qed.

Lemma visit_file_selected (args : Args) (settings : Settings) (rs : list Replacement)
    (repo_root root : path) (totals : dict nat) (fname : pystr) (w : world)
    (raw : pystr) :
  str_in (extension fname) (include_extensions settings) = true →
  disk w (joinpath root fname) = Some raw →
  visit_file args settings rs repo_root root totals fname w =
  (report_and_write args repo_root (joinpath root fname)
     (fst (apply_rules (universal_newlines raw) rs))
     (snd (apply_rules (universal_newlines raw) rs)) ≫= λ _,
   lift (add_counts totals (snd (apply_rules (universal_newlines raw) rs))) ≫= λ totals',
   done_file (joinpath root fname) (snd (apply_rules (universal_newlines raw) rs)) totals')
    (log (EvReadText (joinpath root fname) (Some (universal_newlines raw))) w).
Proof.
  intros Hsel Hdisk. unfold visit_file. rewrite Hsel. cbn [negb].
  rewrite bind_run. unfold process_file. rewrite bind_run. unfold read_text.
  rewrite Hdisk. cbn [fmap option_fmap option_map mret M_ret].
  by destruct (apply_rules (universal_newlines raw) rs).
Qed.

(** X13: a file in which no rule's search string occurs is only read.
    Nothing is printed for it, it is not read a second time nor written,
    its path is not taken relative to the repository root, and the totals
    come back as they were; this holds in either mode. *)
Theorem X13_file_without_occurrences (args : Args) (settings : Settings)
    (rs : list Replacement) (repo_root root : path) (totals : dict nat)
    (fname : pystr) (w : world) (raw : pystr) :
  str_in (extension fname) (include_extensions settings) = true →
  disk w (joinpath root fname) = Some raw →
  (∀ r, r ∈ rs → ¬ occurs_in (universal_newlines raw) (search r)) →
  covers rs totals →
  visit_file args settings rs repo_root root totals fname w =
  (Ok totals,
   log (EvFileDone (joinpath root fname) (zero_counts rs))
     (log (EvReadText (joinpath root fname) (Some (universal_newlines raw))) w)).
Proof.
  intros Hsel Hdisk Hno Hcov. rewrite (visit_file_selected _ _ _ _ _ _ _ _ _ Hsel Hdisk).
  unfold apply_rules. rewrite (fold_rules_absent _ _ _ Hno). cbn [fst snd].
  fold (zero_counts rs).
  rewrite bind_run. unfold report_and_write.
  rewrite (any_count_zero _ (zero_counts_values rs)). cbn [mret M_ret].
  rewrite bind_run. unfold lift. rewrite add_counts_zero; [done|apply zero_counts_values|].
  intros k Hk. by apply Hcov, zero_counts_keys.
Qed.

(** X14: a file with an occurrence whose path is not under the working
    directory ends the run with a [ValueError] as soon as it has been
    read: nothing is printed or written, in either mode. *)
Theorem X14_file_outside_the_root (args : Args) (settings : Settings)
    (rs : list Replacement) (repo_root root : path) (totals : dict nat)
    (fname : pystr) (w : world) (raw : pystr) :
  str_in (extension fname) (include_extensions settings) = true →
  disk w (joinpath root fname) = Some raw →
  any_count (snd (apply_rules (universal_newlines raw) rs)) = true →
  relative_to (joinpath root fname) repo_root = None →
  visit_file args settings rs repo_root root totals fname w =
  (Abort (Uncaught ValueError),
   log (EvReadText (joinpath root fname) (Some (universal_newlines raw))) w).
Proof.
  intros Hsel Hdisk Hany Hrel. rewrite (visit_file_selected _ _ _ _ _ _ _ _ _ Hsel Hdisk).
  rewrite bind_run. unfold report_and_write. by rewrite Hany, Hrel.
Qed.


(** What lines 113-120 do without [--apply]. *)
Lemma report_and_write_dry (args : Args) (repo_root fpath : path)
    (new_text : pystr) (counts : dict nat) (w : world) :
  apply args = false →
  report_and_write args repo_root fpath new_text counts w =
  if any_count counts then
    match relative_to fpath repo_root with
    | Some rel => print (OutFile rel :: count_lines counts) w
    | None => (Abort (Uncaught ValueError), w)
    end
  else (Ok tt, w).
Proof.
  intros Ha. unfold report_and_write. destruct (any_count counts); [|done].
  destruct (relative_to fpath repo_root) as [rel|]; [|done].
  rewrite bind_run, Ha. by destruct (print _ w) as [[[]|f] w1].
Qed.

(** X16: a dry run of a file reports what the apply run reports.  When
    the iteration for a file completes in some mode, it completes without
    [--apply] from the same world too, with the same totals and the same
    lines printed, and leaves every file as it was. *)
Theorem X16_dry_run_reports_the_same (args args' : Args) (settings : Settings)
    (rs : list Replacement) (repo_root root : path) (totals totals1 : dict nat)
    (fname : pystr) (w w1 : world) :
  apply args' = false →
  visit_file args settings rs repo_root root totals fname w = (Ok totals1, w1) →
  ∃ w1',
    visit_file args' settings rs repo_root root totals fname w = (Ok totals1, w1') ∧
    stdout w1' = stdout w1 ∧
    disk w1' = disk w.
Proof.
  intros Hdry. unfold visit_file. destruct (negb _).
  { intros [= <- <-]. by exists w. }
  rewrite !bind_run. unfold process_file. rewrite !bind_run. unfold read_text.
  destruct (universal_newlines <$> disk w (joinpath root fname)) as [text|]; [|done].
  cbn [mret M_ret]. destruct (apply_rules text rs) as [new_text counts].
  rewrite !bind_run.
  rewrite (report_and_write_dry args' _ _ _ _ _ Hdry).
  destruct (report_and_write args _ _ _ _ _) as [[u|f] w2] eqn:Hrw; [|done].
  apply report_and_write_returns in Hrw.
  destruct (any_count counts).
  - destruct Hrw as (rel & -> & Hprints & Hout).
    rewrite (print_accepted _ _ Hprints).
    rewrite !bind_run. unfold lift. destruct (add_counts totals counts); [|done].
    unfold done_file. intros [= <- <-]. eexists. split; [reflexivity|].
    cbn [log emit stdout disk]. by rewrite Hout.
  - subst w2. rewrite !bind_run. unfold lift.
    destruct (add_counts totals counts); [|done].
    unfold done_file. intros [= <- <-]. eexists. split; [reflexivity | done].
Qed.

Lemma extension_no_dot (fname : pystr) : DOT ∉ extension fname.
Proof.
  pose proof (extension_of_total fname) as He.
  remember (extension fname) as e eqn:Heq. clear Heq.
  destruct He; [done|apply not_elem_of_nil..].
Qed.

(** X17: the extension of a file name never contains a dot and is
    compared with strings only.  So when every string among the included
    extensions contains a dot, as [.mojo] or [tar.gz] do, no file is
    processed: each one found is skipped without being read. *)
Theorem X17_dotted_extensions_select_nothing (args : Args) (settings : Settings)
    (rs : list Replacement) (repo_root root : path) (totals : dict nat)
    (fname : pystr) (w : world) :
  (∀ s, TStr s ∈ include_extensions settings → DOT ∈ s) →
  (DOT ∉ extension fname) ∧
  visit_file args settings rs repo_root root totals fname w = (Ok totals, w).
Proof.
  intros Hdots. split; [apply extension_no_dot|].
  unfold visit_file. destruct (str_in _ _) eqn:Hin; [|done].
  apply str_in_spec, Hdots in Hin. by destruct (extension_no_dot fname).
Qed.

(** *** The flags *)

Lemma for_each_ext {A S} (body body' : S → A → M S) (l : list A) :
  (∀ s x w, body s x w = body' s x w) →
  ∀ s w, for_each body l s w = for_each body' l s w.
Proof.
  intros Hext. induction l as [|x l IH]; intros s w; cbn [for_each]; [done|].
  rewrite !bind_run, Hext. destruct (body' s x w) as [[s1|f] w1]; [apply IH | done].
Qed.

Lemma report_and_write_mode (args args' : Args) (repo_root fpath : path)
    (new_text : pystr) (counts : dict nat) (w : world) :
  apply args = apply args' →
  report_and_write args repo_root fpath new_text counts w =
  report_and_write args' repo_root fpath new_text counts w.
Proof. intros Ha. unfold report_and_write. by rewrite Ha. Qed.

Lemma visit_file_mode (args args' : Args) (settings : Settings) (rs : list Replacement)
    (repo_root root : path) (totals : dict nat) (fname : pystr) (w : world) :
  apply args = apply args' →
  visit_file args settings rs repo_root root totals fname w =
  visit_file args' settings rs repo_root root totals fname w.
Proof.
  intros Ha. unfold visit_file. destruct (negb _); [done|].
  rewrite !bind_run. destruct (process_file _ _ _) as [[[new_text counts]|f] w1]; [|done].
  rewrite !bind_run. by rewrite (report_and_write_mode args args' _ _ _ _ _ Ha).
Qed.

Lemma visit_directory_mode (args args' : Args) (settings : Settings)
    (rs : list Replacement) (repo_root : path) (totals : dict nat) (rel_dir : toml)
    (w : world) :
  apply args = apply args' →
  visit_directory args settings rs repo_root totals rel_dir w =
  visit_directory args' settings rs repo_root totals rel_dir w.
Proof.
  intros Ha. unfold visit_directory. destruct rel_dir as [d| | |]; [|done..].
  rewrite !bind_run. destruct (is_dir _ w) as [[found|f] w1]; [|done].
  destruct (negb found); [done|]. rewrite !bind_run.
  destruct (walk _ w1) as [[entries|f] w2]; [|done].
  apply for_each_ext. intros t entry w3.
  apply for_each_ext. intros. by apply visit_file_mode.
Qed.

(** X18: once one of the two flags is given, [--dry-run] is never looked
    at again.  Two invocations with the same configuration path that
    agree on [--apply] and each give at least one flag run identically:
    same outcome, same output, same reads and writes. *)
Theorem X18_dry_run_flag_has_no_effect (args args' : Args) (w : world) :
  config args = config args' →
  apply args = apply args' →
  dry_run args || apply args = true →
  dry_run args' || apply args' = true →
  main args w = main args' w.
Proof.
  intros Hc Ha Hf Hf'. rewrite (main_unfold _ _ Hf), (main_unfold _ _ Hf'), Hc.
  destruct (load_config (config args') w) as [[[settings rs]|f] w1]; [|done].
  destruct (directories settings) as [|d dirs]; [done|].
  rewrite (for_each_ext _ (visit_directory args' settings rs (cwd w1))); [done|].
  intros. by apply visit_directory_mode.
Qed.

(** *** The directories *)

(** X19: [directories] need not be an array.  Under a non-empty
    [settings] table, a string is taken character by character, each
    character a directory of its own, and a table is taken as the list of
    its keys; a number, a boolean or a date makes the load fail with a
    [TypeError]. *)
Theorem X19_directories_of_any_sequence (data tbl : dict toml) :
  dict_get data (py "settings") = Some (TTable tbl) →
  tbl ≠ [] →
  (∀ s settings rs,
     dict_get tbl (py "directories") = Some (TStr s) →
     config_of data = Ok (settings, rs) →
     directories settings = map (λ c, TStr [c]) s) ∧
  (∀ items settings rs,
     dict_get tbl (py "directories") = Some (TTable items) →
     config_of data = Ok (settings, rs) →
     directories settings = map (λ kv, TStr (fst kv)) items) ∧
  (∀ shown b,
     dict_get tbl (py "directories") = Some (TScalar shown b) →
     config_of data = Abort (Uncaught TypeError)).
Proof.
  intros Hs Hne.
  assert (∀ v, dict_get tbl (py "directories") = Some v →
    match py_iter v with
    | Ok l => ∀ settings rs, config_of data = Ok (settings, rs) → directories settings = l
    | Abort _ => config_of data = Abort (Uncaught TypeError)
    end) as Hgen.
  { intros v Hv.
    assert (get_or tbl (py "directories") (TArray []) = v) as Hgo
      by (unfold get_or; by rewrite Hv).
    unfold config_of. rewrite Hs.
    assert (truthy_toml (TTable tbl) = true) as -> by (by destruct tbl).
    cbn [get_method]. rewrite Hgo.
    destruct (py_iter (get_or tbl (py "include_extensions") _)) as [exts|f] eqn:He.
    - destruct (py_iter v) as [l|f] eqn:Hl.
      + intros settings rs.
        destruct (py_iter (get_or data (py "replacements") _)); [|done].
        destruct (load_replacements _); [|done]. by intros [= <- _].
      + by apply py_iter_Abort in Hl as ->.
    - apply py_iter_Abort in He as ->. by destruct (py_iter v). }
  split; [|split].
  - intros s settings rs Hv. apply (Hgen _ Hv).
  - intros items settings rs Hv. apply (Hgen _ Hv).
  - intros shown b Hv. apply (Hgen _ Hv).
Qed.


(** *** Loops *)

(** X21: the loop over the files of a directory stops at the first file
    whose iteration fails: the run ends in the world that failure left,
    whatever files would have followed. *)
Theorem X21_file_loop_stops_at_first_failure (args : Args) (settings : Settings)
    (rs : list Replacement) (repo_root root : path) (totals totals1 : dict nat)
    (before after : list pystr) (fname : pystr) (w w1 w2 : world) (f : failure) :
  for_each (visit_file args settings rs repo_root root) before totals w = (Ok totals1, w1) →
  visit_file args settings rs repo_root root totals1 fname w1 = (Abort f, w2) →
  for_each (visit_file args settings rs repo_root root) (before ++ fname :: after) totals w =
  (Abort f, w2).
Proof.
  revert totals w. induction before as [|x before IH]; intros totals w; cbn [for_each app].
  - intros [= <- <-] Hfail. by rewrite bind_run, Hfail.
  - rewrite !bind_run.
    destruct (visit_file _ _ _ _ _ totals x w) as [[t|f1] w'] eqn:Hx; [|done].
    apply IH.
Qed.

End Further.

(** ** Rules in sequence *)

Lemma fold_rules_get (rs : list Replacement) (t : pystr) (c : dict nat) (k : pystr) :
  dict_get (snd (fold_left apply_rule rs (t, c))) k =
  match dict_get (snd (fold_left apply_rule rs (t, []))) k with
  | Some v => Some v
  | None => dict_get c k
  end.
Proof.
  induction rs as [|r rs IH] using rev_ind; [done|].
  rewrite !fold_left_app. cbn [fold_left].
  pose proof (fold_rules_text rs (t, c)) as H1.
  pose proof (fold_rules_text rs (t, [])) as H2. cbn [fst] in H1, H2.
  destruct (fold_left apply_rule rs (t, c)) as [t1 c1].
  destruct (fold_left apply_rule rs (t, [])) as [t2 c2].
  cbn [fst snd apply_rule] in *. subst t1 t2.
  rewrite !dict_get_set. by destruct (decide (name r = k)).
Qed.

(** X22: rule lists compose.  Applying [rs1 ++ rs2] to a text gives the
    text that applying [rs2] to the result of [rs1] gives; the count
    recorded under a name is the one from the pass of [rs2] when [rs2]
    has a rule of that name, and the one from the pass of [rs1]
    otherwise. *)
Theorem X22_rule_lists_compose (text : pystr) (rs1 rs2 : list Replacement) (k : pystr) :
  fst (apply_rules text (rs1 ++ rs2)) =
    fst (apply_rules (fst (apply_rules text rs1)) rs2) ∧
  dict_get (snd (apply_rules text (rs1 ++ rs2))) k =
    match dict_get (snd (apply_rules (fst (apply_rules text rs1)) rs2)) k with
    | Some v => Some v
    | None => dict_get (snd (apply_rules text rs1)) k
    end.
Proof.
  rewrite apply_rules_app. destruct (apply_rules text rs1) as [t1 c1]. cbn [fst snd].
  unfold apply_rules. split; [|apply fold_rules_get].
  by rewrite (fold_rules_text rs2 (t1, c1)), (fold_rules_text rs2 (t1, [])).
Qed.

(** ** The further properties on the concrete repository *)

Lemma X5_replacements_loaded_in_order_witness :
  @load_replacements demo_runtime [rule_table "x" "alias " "comptime "] = Ok [alias_rule] ∧
  length [alias_rule] = length [rule_table "x" "alias " "comptime "].
Proof.
  split; [reflexivity|].
  apply (proj1 (proj2 (@X5_replacements_loaded_in_order demo_runtime
                         [rule_table "x" "alias " "comptime "])) [alias_rule]).
  reflexivity.
Defined.

Lemma X6_documented_shape_loads_witness :
  @config_of demo_runtime demo_document = Ok (mojo_only [TStr (py "src")], [alias_rule]).
Proof.
  apply (@X6_documented_shape_loads demo_runtime demo_document
           [(py "directories", TArray [TStr (py "src")])]
           [TStr (py "mojo")] [TStr (py "src")] [rule_table "x" "alias " "comptime "]
           [alias_rule]).
  - reflexivity.
  - discriminate.
  - reflexivity.
  - reflexivity.
  - reflexivity.
  - apply Forall2_cons; [|apply Forall2_nil].
    eexists. split; [reflexivity|]. repeat split.
Defined.

Lemma X7_defaults_witness :
  @config_of demo_runtime [] = Ok (mojo_only [], []).
Proof.
  apply (proj1 (@X7_defaults demo_runtime) []).
  - intros v Hv. discriminate Hv.
  - reflexivity.
Defined.



Lemma X10_no_key_error_witness :
  ∃ totals', add_counts [(py "x", 5)] (snd (apply_rules two_aliases [alias_rule])) = Ok totals' ∧
             keys totals' = keys [(py "x", 5)].
Proof.
  apply (proj2 (proj2 (@X10_no_key_error demo_runtime
                         (demo_args "/repo/demo.toml" true false) demo_world))
           [alias_rule] [(py "x", 5)] two_aliases).
  intros k Hk. exact Hk.
Defined.


Lemma X12_summary_lists_names_in_order_witness :
  fst (@main demo_runtime (demo_args "/repo/demo.toml" true false) demo_world) = Completed ∧
  ∃ (rs : list Replacement) (totals : dict nat),
    keys totals = first_seen (map name rs) ∧ NoDup (keys totals).
Proof.
  split; [vm_compute; reflexivity|].
  destruct (@X12_summary_lists_names_in_order demo_runtime
              (demo_args "/repo/demo.toml" true false) demo_world)
    as (_ & _ & _ & rs & totals & _ & _ & _ & _ & _ & Hk & Hnd);
    [vm_compute; reflexivity|].
  exists rs, totals. split; [exact Hk | exact Hnd].
Defined.

Lemma X13_file_without_occurrences_witness :
  @visit_file demo_runtime (demo_args "/repo/demo.toml" false true)
    (mojo_only [TStr (py "src")]) [quiet_rule] (py "/repo") (py "/repo/src")
    [(py "q", 0)] (py "a.mojo") demo_world =
  (Ok [(py "q", 0)],
   log (@EvFileDone demo_runtime (py "/repo/src/a.mojo") [(py "q", 0)])
     (log (@EvReadText demo_runtime (py "/repo/src/a.mojo") (Some two_aliases)) demo_world)).
Proof.
  apply (@X13_file_without_occurrences demo_runtime (demo_args "/repo/demo.toml" false true)
           (mojo_only [TStr (py "src")]) [quiet_rule] (py "/repo") (py "/repo/src")
           [(py "q", 0)] (py "a.mojo") demo_world two_aliases).
  - vm_compute. reflexivity.
  - vm_compute. reflexivity.
  - intros r Hr. apply list_elem_of_singleton in Hr. subst r.
    apply str_count_zero. vm_compute. reflexivity.
  - intros k Hk. exact Hk.
Defined.

Lemma X14_file_outside_the_root_witness :
  @visit_file demo_runtime (demo_args "/repo/demo.toml" false true)
    (mojo_only [TStr (py "src")]) [alias_rule] (py "/elsewhere") (py "/repo/src")
    [(py "x", 0)] (py "a.mojo") demo_world =
  (Abort (Uncaught ValueError),
   log (@EvReadText demo_runtime (py "/repo/src/a.mojo") (Some two_aliases)) demo_world).
Proof.
  apply (@X14_file_outside_the_root demo_runtime (demo_args "/repo/demo.toml" false true)
           (mojo_only [TStr (py "src")]) [alias_rule] (py "/elsewhere") (py "/repo/src")
           [(py "x", 0)] (py "a.mojo") demo_world two_aliases);
    vm_compute; reflexivity.
Defined.


Lemma X16_dry_run_reports_the_same_witness :
  ∃ w1',
    @visit_file demo_runtime (demo_args "/repo/demo.toml" true false)
      (mojo_only [TStr (py "src")]) [alias_rule] (py "/repo") (py "/repo/src")
      [(py "x", 0)] (py "a.mojo") demo_world = (Ok [(py "x", 2)], w1') ∧
    disk w1' = disk demo_world.
Proof.
  destruct (@X16_dry_run_reports_the_same demo_runtime
              (demo_args "/repo/demo.toml" false true)
              (demo_args "/repo/demo.toml" true false)
              (mojo_only [TStr (py "src")]) [alias_rule] (py "/repo") (py "/repo/src")
              [(py "x", 0)] [(py "x", 2)] (py "a.mojo") demo_world
              (snd (@visit_file demo_runtime (demo_args "/repo/demo.toml" false true)
                      (mojo_only [TStr (py "src")]) [alias_rule] (py "/repo")
                      (py "/repo/src") [(py "x", 0)] (py "a.mojo") demo_world)))
    as (w1' & Hv & _ & Hd).
  - reflexivity.
  - vm_compute. reflexivity.
  - exists w1'. split; [exact Hv | exact Hd].
Defined.

Lemma X17_dotted_extensions_select_nothing_witness :
  @visit_file demo_runtime (demo_args "/repo/demo.toml" false true)
    {| include_extensions := [TStr (py ".mojo")]; directories := [TStr (py "src")] |}
    [alias_rule] (py "/repo") (py "/repo/src") [(py "x", 0)] (py "a.mojo") demo_world =
  (Ok [(py "x", 0)], demo_world).
Proof.
  apply (@X17_dotted_extensions_select_nothing demo_runtime
           (demo_args "/repo/demo.toml" false true)
           {| include_extensions := [TStr (py ".mojo")]; directories := [TStr (py "src")] |}
           [alias_rule] (py "/repo") (py "/repo/src") [(py "x", 0)] (py "a.mojo")
           demo_world).
  intros s Hs. apply list_elem_of_singleton in Hs. injection Hs as ->.
  apply list_elem_of_here.
Defined.

Lemma X18_dry_run_flag_has_no_effect_witness :
  @main demo_runtime (demo_args "/repo/demo.toml" true true) demo_world =
  @main demo_runtime (demo_args "/repo/demo.toml" false true) demo_world.
Proof.
  apply (@X18_dry_run_flag_has_no_effect demo_runtime
           (demo_args "/repo/demo.toml" true true)
           (demo_args "/repo/demo.toml" false true) demo_world); reflexivity.
Defined.

Lemma X19_directories_of_any_sequence_witness :
  @config_of demo_runtime string_directories_document =
    Ok (mojo_only [TStr (py "s"); TStr (py "r"); TStr (py "c")], []) ∧
  directories (mojo_only [TStr (py "s"); TStr (py "r"); TStr (py "c")]) =
    map (λ c, TStr [c]) (py "src").
Proof.
  split; [vm_compute; reflexivity|].
  apply (proj1 (@X19_directories_of_any_sequence demo_runtime
                  string_directories_document string_directories_table
                  eq_refl ltac:(discriminate)) (py "src")
           (mojo_only [TStr (py "s"); TStr (py "r"); TStr (py "c")]) []).
  - reflexivity.
  - vm_compute. reflexivity.
Defined.


Lemma X21_file_loop_stops_at_first_failure_witness :
  fst (for_each
         (@visit_file demo_runtime (demo_args "/repo/demo.toml" true false)
            (mojo_only [TStr (py "src")]) [alias_rule] (py "/repo") (py "/repo/src"))
         ([py "a.mojo"] ++ py "gone.mojo" :: [py "b.txt"]) [(py "x", 0)] demo_world) =
  Abort (Uncaught OSError).
Proof.
  rewrite (@X21_file_loop_stops_at_first_failure demo_runtime
             (demo_args "/repo/demo.toml" true false)
             (mojo_only [TStr (py "src")]) [alias_rule] (py "/repo") (py "/repo/src")
             [(py "x", 0)] [(py "x", 2)] [py "a.mojo"] [py "b.txt"] (py "gone.mojo")
             demo_world
             (snd (for_each
                (@visit_file demo_runtime (demo_args "/repo/demo.toml" true false)
                   (mojo_only [TStr (py "src")]) [alias_rule] (py "/repo") (py "/repo/src"))
                [py "a.mojo"] [(py "x", 0)] demo_world))
             (snd (@visit_file demo_runtime (demo_args "/repo/demo.toml" true false)
                (mojo_only [TStr (py "src")]) [alias_rule] (py "/repo") (py "/repo/src")
                [(py "x", 2)] (py "gone.mojo")
                (snd (for_each
                   (@visit_file demo_runtime (demo_args "/repo/demo.toml" true false)
                      (mojo_only [TStr (py "src")]) [alias_rule] (py "/repo")
                      (py "/repo/src"))
                   [py "a.mojo"] [(py "x", 0)] demo_world))))
             (Uncaught OSError)).
  - reflexivity.
  - vm_compute. reflexivity.
  - vm_compute. reflexivity.
Defined.
